(** * feature-branching: the branch-integration pipeline of [main.go]

    A shallow embedding of the Go program [main.go] and the properties of
    its label filter, label parsing, integration loop, history recorder,
    publisher and output channel.

    The program talks to three outside parties: the [git] executable, the
    file system, and the GitHub REST API.  They are kept abstract: a
    [Host] provides one transition function per kind of call, and the
    embedding threads the host's state explicitly, together with a ghost
    trace of every call made and its result.  Library functions of Go
    whose tables are not part of the repository (Unicode case mapping,
    JSON encoding) are fields of the classes [Unicode] and [Encoding];
    their ASCII paths are written out. *)

From stdpp Require Import base gmap sets list strings pretty sorting.
From Stdlib Require Import ZArith Ascii String Lia.

Open Scope string_scope.
Open Scope Z_scope.
Open Scope list_scope.

(** ** Go's [strings] package, as far as [main.go] calls it *)

Module GoStrings.

(** The parts of the Go library that depend on the Unicode tables. *)
Class Unicode := {
  (** [strings.Map(unicode.ToLower, s)], taken when [s] is not pure ASCII *)
  unicode_ToLower : string -> string;
  (** [strings.TrimFunc(s, unicode.IsSpace)] *)
  unicode_TrimSpace : string -> string;
  (** [strings.TrimRightFunc(s, unicode.IsSpace)] *)
  unicode_TrimRightSpace : string -> string
}.

Definition byte_val (c : ascii) : N := N_of_ascii c.

(** [c >= utf8.RuneSelf] *)
Definition is_rune_start (c : ascii) : bool := (128 <=? byte_val c)%N.

Fixpoint isASCII (s : string) : bool :=
  match s with
  | EmptyString => true
  | String c s' => negb (is_rune_start c) && isASCII s'
  end.

(** ['A' <= c && c <= 'Z'] *)
Definition isUpperByte (c : ascii) : bool :=
  ((65 <=? byte_val c) && (byte_val c <=? 90))%N.

(** [c += 'a' - 'A'] for an upper-case byte *)
Definition lowerByte (c : ascii) : ascii :=
  if isUpperByte c then ascii_of_N (byte_val c + 32) else c.

Fixpoint mapBytes (f : ascii -> ascii) (s : string) : string :=
  match s with
  | EmptyString => EmptyString
  | String c s' => String (f c) (mapBytes f s')
  end.

(** The six bytes of Go's [asciiSpace] table: tab, newline, vertical tab,
    form feed, carriage return and space. *)
Definition asciiSpace (c : ascii) : bool :=
  let n := byte_val c in
  ((n =? 9) || (n =? 10) || (n =? 11) || (n =? 12) || (n =? 13) || (n =? 32))%N.

Fixpoint string_of_bytes (l : list ascii) : string :=
  match l with
  | [] => EmptyString
  | c :: l' => String c (string_of_bytes l')
  end.

Fixpoint bytes_of_string (s : string) : list ascii :=
  match s with
  | EmptyString => []
  | String c s' => c :: bytes_of_string s'
  end.

(** Two bytes that are equal, or the upper-case and lower-case form of one
    ASCII letter. *)
Definition sameLetter (c d : ascii) : Prop :=
  c = d ∨
  (isUpperByte c = true ∧ byte_val d = (byte_val c + 32)%N) ∨
  (isUpperByte d = true ∧ byte_val c = (byte_val d + 32)%N).

(** [strings.Split(s, sep)] for a separator of one byte, the only way the
    program calls it.  The empty string gives one empty piece. *)
Fixpoint SplitByte (sep : ascii) (s : string) : list string :=
  match s with
  | EmptyString => [EmptyString]
  | String c s' =>
      if Ascii.eqb c sep then EmptyString :: SplitByte sep s'
      else match SplitByte sep s' with
           | [] => [String c EmptyString]
           | piece :: pieces => String c piece :: pieces
           end
  end.

Section WithUnicode.
Context `{U : Unicode}.

(** [strings.ToLower]: the ASCII path maps bytes, any other string goes
    through the Unicode tables. *)
Definition ToLower (s : string) : string :=
  if isASCII s then mapBytes lowerByte s else unicode_ToLower s.

(** Second loop of [strings.TrimSpace], reading the bytes from the right
    end ([r] is the remaining string reversed). *)
Fixpoint trimStop (r : list ascii) : string :=
  match r with
  | [] => EmptyString
  | c :: r' =>
      if is_rune_start c then unicode_TrimRightSpace (string_of_bytes (rev r))
      else if asciiSpace c then trimStop r'
      else string_of_bytes (rev r)
  end.

(** [strings.TrimSpace]: first loop from the left, then [trimStop]. *)
Fixpoint TrimSpace (s : string) : string :=
  match s with
  | EmptyString => EmptyString
  | String c s' =>
      if is_rune_start c then unicode_TrimSpace s
      else if asciiSpace c then TrimSpace s'
      else trimStop (rev (bytes_of_string s))
  end.

(** Equality after lower-casing: the comparison the label filter makes. *)
Definition equalFold (a b : string) : Prop := ToLower a = ToLower b.

#[global] Instance equalFold_dec a b : Decision (equalFold a b) :=
  decide (ToLower a = ToLower b).
End WithUnicode.

(** [%d] of [fmt.Sprintf] on an [int]. *)
Definition itoa (n : Z) : string := pretty n.

End GoStrings.

Import GoStrings.

(** An instance for runs on ASCII data, where the Unicode paths are not
    taken. *)
Definition asciiOnly : Unicode :=
  {| unicode_ToLower := fun s => s;
     unicode_TrimSpace := fun s => s;
     unicode_TrimRightSpace := fun s => s |}.

(** ** Data model *)

(** [GitHubPR]; the nested struct [Base] has the single field [Ref]. *)
Record GitHubPR := mkPR {
  Number : Z;
  Title : string;
  State : string;
  CreatedAt : string;
  BaseRef : string;
  Labels : list string
}.

(** [Config] *)
Record Config := mkConfig {
  GithubToken : string;
  Owner : string;
  Repo : string;
  TrunkBranch : string;
  TargetBranch : string;
  RequiredLabels : list string;
  GitHubOutput : string
}.

(** [time.Time] in UTC, as nanoseconds since the Unix epoch. *)
Definition Time : Type := Z.

(** [MergeRecord] *)
Record MergeRecord := mkRecord {
  PR : Z;
  Commit : string;
  Timestamp : Time
}.

(** [RefHistory] *)
Record RefHistory := mkHistory { Merges : list MergeRecord }.

Definition refHistoryFile : string := ".ref-history".
Definition githubAPI : string := "https://api.github.com".
Definition userAgent : string := "GitHubMergeBot/1.0".

(** ** Label parsing and the label filter *)

(** [parseLabels] *)
Definition parseLabels (input : string) : list string :=
  if String.eqb input "" then [] else SplitByte "," input.

Section LabelFilter.
Context `{U : Unicode}.

(** The map [prLabelSet] of [hasAnyLabel], used as a set. *)
Definition prLabelSet (prLabels : list string) : gset string :=
  foldl (fun set l => {[ ToLower l ]} ∪ set) ∅ prLabels.

(** The second loop of [hasAnyLabel], which returns at the first hit. *)
Fixpoint anyRequired (set : gset string) (required : list string) : bool :=
  match required with
  | [] => false
  | req :: rest =>
      if bool_decide (ToLower req ∈ set) then true else anyRequired set rest
  end.

(** [hasAnyLabel] *)
Definition hasAnyLabel (prLabels required : list string) : bool :=
  if (List.length required =? 0)%nat then true
  else anyRequired (prLabelSet prLabels) required.

(** [filterPRs]: the loop appends to [filtered]. *)
Definition filterPRs (prs : list GitHubPR) (requiredLabels : list string)
  : list GitHubPR :=
  foldl (fun filtered pr =>
           if hasAnyLabel (Labels pr) requiredLabels
           then filtered ++ [pr] else filtered)
        [] prs.

(** The contract of the filter in the words of the design: the required
    set is empty, or some label of the candidate equals some required
    label up to letter case. *)
Definition qualifies (required : list string) (pr : GitHubPR) : Prop :=
  required = [] ∨
  Exists (fun l => Exists (fun r => equalFold l r) required) (Labels pr).

#[global] Instance qualifies_dec required pr : Decision (qualifies required pr) :=
  or_dec (decide (required = []))
         (decide (Exists (fun l => Exists (fun r => equalFold l r) required)
                         (Labels pr))).
End LabelFilter.

(** ** The outside world *)

(** What a finished [exec.Command("git", args...)] reports: whether the
    error is nil, the standard output, and standard output and standard
    error combined. *)
Record ExecResult := mkExec {
  exit_ok : bool;
  stdout : string;
  combined : string
}.

(** The request built by [fetchQualifiedPRs]. *)
Record Request := mkRequest {
  url : string;
  headers : list (string * string)
}.

(** [client.Do]: a transport error, or a response with its status code
    and body. *)
Inductive HttpOutcome :=
| TransportError
| Response (status : Z) (body : string).

(** A label object of the API response. *)
Record RawLabel := mkLabel { Name : string }.

(** One element of [rawPRs]. *)
Record RawPR := mkRaw {
  raw_Number : Z;
  raw_Title : string;
  raw_State : string;
  raw_CreatedAt : string;
  raw_BaseRef : string;
  raw_Labels : list RawLabel
}.

(** Library functions whose code is not in the repository. *)
Class Encoding := {
  (** [http.NewRequest] accepts the URL *)
  http_NewRequest_ok : string -> bool;
  (** [json.NewDecoder(body).Decode(&rawPRs)]; [None] is a decoding error *)
  json_Decode : string -> option (list RawPR);
  (** [json.MarshalIndent(history, "", "  ")]; [None] is an error *)
  json_MarshalIndent : RefHistory -> option string
}.

(** The capabilities the program uses, each a transition of the host. *)
Class Host (Env : Type) := {
  (** run [git] with the given arguments to completion *)
  exec_git : list string -> Env -> ExecResult * Env;
  (** [client.Do(req)] and the reading of the body *)
  http_Do : Request -> Env -> HttpOutcome * Env;
  (** [os.WriteFile(path, data, 0644)]: the file is replaced; [true] is success *)
  os_WriteFile : string -> string -> Env -> bool * Env;
  (** [os.OpenFile(path, O_APPEND|O_CREATE|O_WRONLY, 0644)] *)
  os_OpenAppend : string -> Env -> bool * Env;
  (** a write to the file opened for appending *)
  file_Append : string -> string -> Env -> bool * Env;
  (** [time.Now().UTC()] *)
  time_Now : Env -> Time * Env;
  (** the seed of the order in which a [range] visits a map *)
  map_seed : Env -> nat * Env
}.

(** Go errors, kept structured: the text of an error of the operating
    system is not modelled. *)
Inductive error :=
| Errorf (msg : string)
| Wrap (msg : string) (cause : error)
| GitFailed (args : list string) (output : string)
| LibError (origin : string).

(** Lines on the standard logger. *)
Inductive LogEntry :=
| LogPRFailed (number : Z) (err : error)
| LogFatal (what : string) (err : error).

(** The ghost trace: every call to the outside and what came back. *)
Inductive Event :=
| EvGit (args : list string) (ok : bool)
| EvHttp (req : Request) (res : HttpOutcome)
| EvWriteFile (path data : string) (ok : bool)
| EvOpenAppend (path : string) (ok : bool)
| EvAppend (path data : string) (ok : bool)
| EvLog (entry : LogEntry).

Record World (Env : Type) := mkWorld {
  env : Env;
  trace : list Event
}.
Arguments mkWorld {Env} _ _.
Arguments env {Env} _.
Arguments trace {Env} _.

(** *** Two monads: calls that return, and calls that may end the process *)

Definition IO (Env A : Type) : Type := World Env -> A * World Env.

Definition ret {Env A} (a : A) : IO Env A := fun s => (a, s).

Definition bind {Env A B} (m : IO Env A) (k : A -> IO Env B) : IO Env B :=
  fun s => let '(a, s1) := m s in k a s1.

Notation "'let*' x ':=' m 'in' k" := (bind m (fun x => k))
  (at level 10, x name, m at level 100, k at level 200).

(** The result of a call that can end the process with [os.Exit]. *)
Inductive Outcome (A : Type) :=
| Returned (a : A)
| Exited (code : Z).
Arguments Returned {A} _.
Arguments Exited {A} _.

Definition Proc (Env A : Type) : Type := World Env -> Outcome A * World Env.

Definition retP {Env A} (a : A) : Proc Env A := fun s => (Returned a, s).

Definition bindP {Env A B} (m : Proc Env A) (k : A -> Proc Env B) : Proc Env B :=
  fun s => match m s with
           | (Returned a, s1) => k a s1
           | (Exited c, s1) => (Exited c, s1)
           end.

Definition lift {Env A} (m : IO Env A) : Proc Env A :=
  fun s => let '(a, s1) := m s in (Returned a, s1).

Notation "'run*' x ':=' m 'in' k" := (bindP m (fun x => k))
  (at level 10, x name, m at level 100, k at level 200).

(** [defer f()] around the rest of a function body: [f] runs when the body
    returns, its result dropped; [os.Exit] runs no deferred call. *)
Definition defer {Env A B} (f : IO Env B) (body : Proc Env A) : Proc Env A :=
  fun s => match body s with
           | (Returned a, s1) => let '(_, s2) := f s1 in (Returned a, s2)
           | (Exited c, s1) => (Exited c, s1)
           end.

Definition emit {Env} (ev : Event) : IO Env unit :=
  fun s => (tt, mkWorld (env s) (trace s ++ [ev])).

(** [log.Printf] *)
Definition log_Printf {Env} (entry : LogEntry) : IO Env unit :=
  emit (EvLog entry).

(** [log.Fatal] and [log.Fatalf]: print, then [os.Exit(1)]. *)
Definition log_Fatal {Env A} (what : string) (err : error) : Proc Env A :=
  fun s => (Exited 1, mkWorld (env s) (trace s ++ [EvLog (LogFatal what err)])).

(** [(T, error)] results. *)
Inductive result (A : Type) :=
| Success (a : A)
| Failure (err : error).
Arguments Success {A} _.
Arguments Failure {A} _.

(** ** The program *)

(** The order in which a [range] over a map visits its entries is not
    fixed; [shuffle seed] is the permutation number [seed]. *)
Fixpoint insert_at {A} (k : nat) (x : A) (l : list A) : list A :=
  match k, l with
  | O, _ => x :: l
  | S _, [] => [x]
  | S k', y :: l' => y :: insert_at k' x l'
  end.

Fixpoint shuffle {A} (seed : nat) (l : list A) : list A :=
  match l with
  | [] => []
  | x :: l' =>
      insert_at (Nat.modulo seed (S (List.length l'))) x
                (shuffle (Nat.div seed (S (List.length l'))) l')
  end.

(** The values bound by [flag.Parse]; [None] is a flag that was not given. *)
Record Flags := mkFlags {
  flag_github_token : option string;
  flag_owner : option string;
  flag_repo : option string;
  flag_trunk_branch : option string;
  flag_target_branch : option string;
  flag_labels : option string;
  flag_github_output : option string
}.

(** The command line: [flag.Parse] either ends the process itself (status
    2 for a malformed command line, 0 for [-h]) or binds the flags. *)
Inductive CommandLine :=
| Malformed (code : Z)
| Parsed (fl : Flags).

Definition newline : string := String (ascii_of_nat 10) EmptyString.

Section Program.
Context {Env : Type} `{H : Host Env} `{U : Unicode} `{E : Encoding}.

(** Running [git] once, recorded in the trace. *)
Definition call_git (args : list string) : IO Env ExecResult :=
  fun s => let '(r, e) := exec_git args (env s) in
           (r, mkWorld e (trace s ++ [EvGit args (exit_ok r)])).

Definition call_http (req : Request) : IO Env HttpOutcome :=
  fun s => let '(r, e) := http_Do req (env s) in
           (r, mkWorld e (trace s ++ [EvHttp req r])).

Definition call_WriteFile (path data : string) : IO Env bool :=
  fun s => let '(ok, e) := os_WriteFile path data (env s) in
           (ok, mkWorld e (trace s ++ [EvWriteFile path data ok])).

Definition call_OpenAppend (path : string) : IO Env bool :=
  fun s => let '(ok, e) := os_OpenAppend path (env s) in
           (ok, mkWorld e (trace s ++ [EvOpenAppend path ok])).

Definition call_Append (path data : string) : IO Env bool :=
  fun s => let '(ok, e) := file_Append path data (env s) in
           (ok, mkWorld e (trace s ++ [EvAppend path data ok])).

Definition call_Now : IO Env Time :=
  fun s => let '(t, e) := time_Now (env s) in (t, mkWorld e (trace s)).

Definition call_seed : IO Env nat :=
  fun s => let '(n, e) := map_seed (env s) in (n, mkWorld e (trace s)).

Definition flag_Parse (cl : CommandLine) : Proc Env Flags :=
  match cl with
  | Malformed code => fun s => (Exited code, s)
  | Parsed fl => retP fl
  end.

(** [parseConfig] *)
Definition parseConfig (cl : CommandLine) : Proc Env (Config * option error) :=
  run* fl := flag_Parse cl in
  let cfg := {| GithubToken := default "" (flag_github_token fl);
               Owner := default "" (flag_owner fl);
               Repo := default "" (flag_repo fl);
               TrunkBranch := default "main" (flag_trunk_branch fl);
               TargetBranch := default "" (flag_target_branch fl);
               RequiredLabels := [];
               GitHubOutput := default "" (flag_github_output fl) |} in
  let labels := default "" (flag_labels fl) in
  if String.eqb (GithubToken cfg) "" then
    retP (cfg, Some (Errorf "missing required parameter: 'github_token'"))
  else if String.eqb (Owner cfg) "" then
    retP (cfg, Some (Errorf "missing required parameter: 'owner'"))
  else if String.eqb (Repo cfg) "" then
    retP (cfg, Some (Errorf "missing required parameter: 'repo'"))
  else if String.eqb (GitHubOutput cfg) "" then
    retP (cfg, Some (Errorf "missing required parameter: 'github_output'"))
  else
    let target := if String.eqb (TargetBranch cfg) ""
                  then "pre-" +:+ TrunkBranch cfg else TargetBranch cfg in
    retP ({| GithubToken := GithubToken cfg;
             Owner := Owner cfg;
             Repo := Repo cfg;
             TrunkBranch := TrunkBranch cfg;
             TargetBranch := target;
             RequiredLabels := parseLabels labels;
             GitHubOutput := GitHubOutput cfg |}, None).

(** [mustParseConfig] *)
Definition mustParseConfig (cl : CommandLine) : Proc Env Config :=
  run* r := parseConfig cl in
  match snd r with
  | Some err => log_Fatal "invalid configuration:" err
  | None => retP (fst r)
  end.

(** [runGitCommand] *)
Definition runGitCommand (args : list string) : IO Env (option error) :=
  let* r := call_git args in
  ret (if exit_ok r then None else Some (GitFailed args (combined r))).

Definition configs : list (string * string) :=
  [ ("safe.directory", "/github/workspace");
    ("user.name", "github-actions[bot]");
    ("user.email", "41898282+github-actions[bot]@users.noreply.github.com");
    ("advice.addIgnoredFile", "false") ].

Fixpoint setupGitConfig_range (entries : list (string * string))
  : IO Env (option error) :=
  match entries with
  | [] => ret None
  | (key, value) :: rest =>
      let* err := runGitCommand ["config"; "--global"; key; value] in
      match err with
      | Some e => ret (Some (Wrap "git config error" e))
      | None => setupGitConfig_range rest
      end
  end.

(** [setupGitConfig] *)
Definition setupGitConfig : IO Env (option error) :=
  let* seed := call_seed in
  setupGitConfig_range (shuffle seed configs).

(** [mustSetupGitConfig] *)
Definition mustSetupGitConfig : Proc Env unit :=
  run* err := lift setupGitConfig in
  match err with
  | Some e => log_Fatal "error configuring Git:" e
  | None => retP tt
  end.

Definition pullsURL (cfg : Config) : string :=
  githubAPI +:+ "/repos/" +:+ Owner cfg +:+ "/" +:+ Repo cfg +:+
  "/pulls?state=open&base=" +:+ TrunkBranch cfg +:+
  "&sort=created&direction=asc".

Definition pullsRequest (cfg : Config) : Request :=
  {| url := pullsURL cfg;
     headers := [ ("Authorization", "token " +:+ GithubToken cfg);
                  ("Accept", "application/vnd.github.v3+json");
                  ("User-Agent", userAgent) ] |}.

(** The conversion of one raw record in [fetchQualifiedPRs]. *)
Definition toPR (raw : RawPR) : GitHubPR :=
  {| Number := raw_Number raw;
     Title := raw_Title raw;
     State := raw_State raw;
     CreatedAt := raw_CreatedAt raw;
     BaseRef := raw_BaseRef raw;
     Labels := map Name (raw_Labels raw) |}.

(** [fetchQualifiedPRs] *)
Definition fetchQualifiedPRs (cfg : Config) : IO Env (result (list GitHubPR)) :=
  if negb (http_NewRequest_ok (pullsURL cfg)) then
    ret (Failure (Wrap "request creation failed" (LibError "net/http")))
  else
    let* resp := call_http (pullsRequest cfg) in
    match resp with
    | TransportError =>
        ret (Failure (Wrap "request API failed" (LibError "net/http")))
    | Response status body =>
        if negb (status =? 200) then
          ret (Failure (Errorf ("response API status " +:+ itoa status)))
        else
          match json_Decode body with
          | None =>
              ret (Failure (Wrap "response API decoding failed"
                                 (LibError "encoding/json")))
          | Some rawPRs =>
              ret (Success (filterPRs (map toPR rawPRs) (RequiredLabels cfg)))
          end
    end.

(** [mustFetchQualifiedPRs] *)
Definition mustFetchQualifiedPRs (cfg : Config) : Proc Env (list GitHubPR) :=
  run* r := lift (fetchQualifiedPRs cfg) in
  match r with
  | Failure err => log_Fatal "error fetching PRs:" err
  | Success prs => retP prs
  end.

(** [branchExists] *)
Definition branchExists (branch : string) : IO Env bool :=
  let* err := runGitCommand ["show-ref"; "--verify"; "refs/heads/" +:+ branch] in
  ret (match err with None => true | Some _ => false end).

(** [prepareTargetBranch] *)
Definition prepareTargetBranch (cfg : Config) : Proc Env unit :=
  run* err := lift (runGitCommand ["checkout"; TrunkBranch cfg]) in
  match err with
  | Some e => log_Fatal "checkout to trunk branch failed" e
  | None =>
      run* exists_ := lift (branchExists (TargetBranch cfg)) in
      run* _ := (if exists_ then
                   run* err := lift (runGitCommand ["branch"; "-D"; TargetBranch cfg]) in
                   match err with
                   | Some e => log_Fatal "delete target branch failed" e
                   | None => retP tt
                   end
                 else retP tt) in
      run* err := lift (runGitCommand ["checkout"; "-B"; TargetBranch cfg]) in
      match err with
      | Some e => log_Fatal "create target branch failed" e
      | None => retP tt
      end
  end.

Definition prBranch (pr : GitHubPR) : string := "pr-" +:+ itoa (Number pr).

Definition fetchArgs (pr : GitHubPR) : list string :=
  ["fetch"; "origin"; "pull/" +:+ itoa (Number pr) +:+ "/head:" +:+ prBranch pr].

Definition squashArgs (pr : GitHubPR) : list string :=
  ["merge"; "--squash"; prBranch pr].

Definition commitArgs (pr : GitHubPR) : list string :=
  ["commit"; "-m"; Title pr].

(** [processSinglePR] *)
Definition processSinglePR (pr : GitHubPR) : IO Env (option error) :=
  let branch := prBranch pr in
  let* err := runGitCommand (fetchArgs pr) in
  match err with
  | Some e => ret (Some (Wrap ("fetch PR branch '" +:+ branch +:+ "' failed") e))
  | None =>
      let* err := runGitCommand (squashArgs pr) in
      match err with
      | Some e => ret (Some (Wrap "squash merge failed" e))
      | None =>
          let* err := runGitCommand (commitArgs pr) in
          match err with
          | Some e => ret (Some (Wrap "create commit failed" e))
          | None => ret None
          end
      end
  end.

(** [getLatestCommitSHA] *)
Definition getLatestCommitSHA : IO Env string :=
  let* r := call_git ["rev-parse"; "HEAD"] in
  ret (if exit_ok r then TrimSpace (stdout r) else "unknown").

(** [createMergeRecord]: the fields are evaluated in the order written. *)
Definition createMergeRecord (pr : GitHubPR) : IO Env MergeRecord :=
  let* sha := getLatestCommitSHA in
  let* now := call_Now in
  ret {| PR := Number pr; Commit := sha; Timestamp := now |}.

(** The loop of [processPRs], with the records collected so far. *)
Fixpoint processPRs_range (prs : list GitHubPR) (mergedPRs : list MergeRecord)
  : IO Env (list MergeRecord) :=
  match prs with
  | [] => ret mergedPRs
  | pr :: rest =>
      let* err := processSinglePR pr in
      match err with
      | Some e =>
          let* _ := log_Printf (LogPRFailed (Number pr) e) in
          processPRs_range rest mergedPRs
      | None =>
          let* record := createMergeRecord pr in
          processPRs_range rest (mergedPRs ++ [record])
      end
  end.

(** [processPRs] *)
Definition processPRs (prs : list GitHubPR) : IO Env (list MergeRecord) :=
  processPRs_range prs [].

Definition historyCommitArgs : list string :=
  ["commit"; "-m"; "chore: update ref-history"].

(** [updateRefHistory] *)
Definition updateRefHistory (merges : list MergeRecord) : IO Env (option error) :=
  let history := {| Merges := merges |} in
  match json_MarshalIndent history with
  | None =>
      ret (Some (Wrap "history serialization failed" (LibError "encoding/json")))
  | Some data =>
      let* ok := call_WriteFile refHistoryFile data in
      if negb ok then ret (Some (Wrap "file write failed" (LibError "os")))
      else
        let* err := runGitCommand ["add"; refHistoryFile] in
        match err with
        | Some e => ret (Some e)
        | None => runGitCommand historyCommitArgs
        end
  end.

(** [updateMergeHistory] *)
Definition updateMergeHistory (merges : list MergeRecord) : Proc Env unit :=
  run* err := lift (updateRefHistory merges) in
  match err with
  | Some e => log_Fatal "error updating history:" e
  | None => retP tt
  end.

Definition pushArgs (cfg : Config) : list string :=
  ["push"; "origin"; TargetBranch cfg; "--force"].

(** [pushChanges] *)
Definition pushChanges (cfg : Config) : IO Env (option error) :=
  runGitCommand (pushArgs cfg).

(** [setOutput]; the deferred [f.Close()] has no result that is looked at. *)
Definition setOutput (cfg : Config) (name value : string) : IO Env (option error) :=
  let* opened := call_OpenAppend (GitHubOutput cfg) in
  if negb opened then ret (Some (Wrap "open output file failed" (LibError "os")))
  else
    let* ok := call_Append (GitHubOutput cfg) (name +:+ "=" +:+ value +:+ newline) in
    if negb ok then ret (Some (Wrap "write output failed" (LibError "os")))
    else ret None.

(** [main]: the results of [pushChanges] and of the deferred [setOutput]
    are not looked at. *)
Definition main (cl : CommandLine) : Proc Env unit :=
  run* cfg := mustParseConfig cl in
  defer (setOutput cfg "target_branch" (TargetBranch cfg))
    (run* _ := mustSetupGitConfig in
     run* prs := mustFetchQualifiedPRs cfg in
     run* _ := prepareTargetBranch cfg in
     run* mergedPRs := lift (processPRs prs) in
     run* _ := updateMergeHistory mergedPRs in
     run* _ := lift (pushChanges cfg) in
     retP tt).

End Program.

(** The exit status of the process: 0 when [main] returns. *)
Definition exit_status {A} (o : Outcome A) : Z :=
  match o with
  | Returned _ => 0
  | Exited code => code
  end.

(** ** Notions used to state the properties *)

(** The [git] commands of a trace, in the order they were run. *)
Definition gitCommands (tr : list Event) : list (list string) :=
  omap (fun ev => match ev with EvGit args _ => Some args | _ => None end) tr.

Definition isFetch (args : list string) : bool :=
  match args with
  | cmd :: _ => String.eqb cmd "fetch"
  | [] => false
  end.

(** The fetches of a trace: one is made at the start of each candidate's
    integration, so this is the order of integration. *)
Definition fetched (tr : list Event) : list (list string) :=
  List.filter isFetch (gitCommands tr).

(** A trace without its log lines: the calls that can change anything. *)
Definition outsideCalls (tr : list Event) : list Event :=
  List.filter (fun ev => match ev with EvLog _ => false | _ => true end) tr.

Definition isFailedSquash (ev : Event) : bool :=
  match ev with
  | EvGit (cmd :: opt :: _) false => String.eqb cmd "merge" && String.eqb opt "--squash"
  | _ => false
  end.

Definition isFetchEvent (ev : Event) : bool :=
  match ev with
  | EvGit args _ => isFetch args
  | _ => false
  end.

(** Whether somewhere in the trace a failed squash is followed by the fetch
    of the next candidate with no call in between that could clean the
    work tree. *)
Fixpoint squashFailureUncleaned (calls : list Event) : bool :=
  match calls with
  | ev :: ((next :: _) as rest) =>
      (isFailedSquash ev && isFetchEvent next) || squashFailureUncleaned rest
  | _ => false
  end.

(** The design's demand on a trace: no failed squash is followed by the
    next candidate's fetch without a cleaning call in between. *)
Definition neutralized (tr : list Event) : Prop :=
  squashFailureUncleaned (outsideCalls tr) = false.

Definition isFatalLog (ev : Event) : bool :=
  match ev with
  | EvLog (LogFatal _ _) => true
  | _ => false
  end.

(** Whether a value was appended to the output sink. *)
Definition isOutputWritten (ev : Event) : bool :=
  match ev with
  | EvAppend _ _ true => true
  | _ => false
  end.

Definition isOutputCall (ev : Event) : bool :=
  match ev with
  | EvAppend _ _ _ | EvOpenAppend _ _ => true
  | _ => false
  end.

(** The line [setOutput] writes for [target_branch]. *)
Definition outputLine (cfg : Config) : string :=
  "target_branch" +:+ "=" +:+ TargetBranch cfg +:+ newline.

(** Ascending order of creation time.  [created_at] is an RFC 3339 time in
    UTC, for which the order of the bytes is the order in time. *)
Definition createdBefore (a b : GitHubPR) : Prop :=
  String.leb (CreatedAt a) (CreatedAt b) = true.

#[global] Instance createdBefore_dec a b : Decision (createdBefore a b) :=
  decide (String.leb (CreatedAt a) (CreatedAt b) = true).

Definition sortByCreated (prs : list GitHubPR) : list GitHubPR :=
  merge_sort createdBefore prs.

Section Notions.
Context {Env : Type} `{H : Host Env} `{U : Unicode} `{E : Encoding}.

(** The integration loop as a fold that gives every candidate its verdict:
    the record of its integration, or none when one of its steps failed. *)
Fixpoint verdicts (prs : list GitHubPR) (s : World Env)
  : list (GitHubPR * option MergeRecord) :=
  match prs with
  | [] => []
  | pr :: rest =>
      match processSinglePR pr s with
      | (Some e, s1) =>
          (pr, None) :: verdicts rest (snd (log_Printf (LogPRFailed (Number pr) e) s1))
      | (None, s1) =>
          let '(record, s2) := createMergeRecord pr s1 in
          (pr, Some record) :: verdicts rest s2
      end
  end.

(** The part of [main] before the integration loop: configuration, global
    git setup, the query and the reset of the target branch. *)
Definition preamble (cl : CommandLine) : Proc Env (Config * list GitHubPR) :=
  run* cfg := mustParseConfig cl in
  run* _ := mustSetupGitConfig in
  run* prs := mustFetchQualifiedPRs cfg in
  run* _ := prepareTargetBranch cfg in
  retP (cfg, prs).

(** The events of the three steps of one candidate, given which of them
    succeeded. *)
Definition attemptEvents (pr : GitHubPR) (okFetch okSquash okCommit : bool)
  : list Event :=
  EvGit (fetchArgs pr) okFetch ::
  (if okFetch then
     EvGit (squashArgs pr) okSquash ::
     (if okSquash then [EvGit (commitArgs pr) okCommit] else [])
   else []).

(** The events of a history recorder that succeeds. *)
Definition historyEvents (data : string) : list Event :=
  [ EvWriteFile refHistoryFile data true;
    EvGit ["add"; refHistoryFile] true;
    EvGit historyCommitArgs true ].
End Notions.

(** The events of [setOutput] for [target_branch], given how the sink
    answered; the line is written when both answers are [true]. *)
Definition outputEvents (cfg : Config) (okOpen okWrite : bool) : list Event :=
  EvOpenAppend (GitHubOutput cfg) okOpen ::
  (if okOpen then [EvAppend (GitHubOutput cfg) (outputLine cfg) okWrite] else []).

Definition notOutput (ev : Event) : bool := negb (isOutputCall ev).



(** The events of the history recorder, given which of its steps
    succeeded. *)
Definition recorderEvents (data : string) (okWrite okAdd okCommit : bool)
  : list Event :=
  EvWriteFile refHistoryFile data okWrite ::
  (if okWrite then
     EvGit ["add"; refHistoryFile] okAdd ::
     (if okAdd then [EvGit historyCommitArgs okCommit] else [])
   else []).

(** Whether an [error] is nil. *)
Definition isNil (err : option error) : bool :=
  match err with
  | None => true
  | Some _ => false
  end.

(** Events that touch neither a file nor the output sink. *)
Definition isCommand (ev : Event) : bool :=
  match ev with
  | EvGit _ _ | EvHttp _ _ | EvLog _ => true
  | _ => false
  end.

(** A computation that only adds events satisfying [Q] to the trace. *)
Definition onlyEmits {Env X} (Q : Event → bool)
  (m : World Env → X * World Env) : Prop :=
  ∀ s, ∃ evs, trace (snd (m s)) = trace s ++ evs ∧ forallb Q evs = true.

(** ** Hosts for concrete runs *)

(** A host whose [git] fails on exactly the listed command lines.  The
    state is a clock; [rev-parse] prints a fixed identifier. *)
Definition scripted (failing : list (list string)) (api : HttpOutcome) : Host Z :=
  {| exec_git := fun args clock =>
       ({| exit_ok := negb (bool_decide (args ∈ failing));
           stdout := "4f2a9c1" +:+ newline;
           combined := "" |}, clock);
     http_Do := fun _ clock => (api, clock);
     os_WriteFile := fun _ _ clock => (true, clock);
     os_OpenAppend := fun _ clock => (true, clock);
     file_Append := fun _ _ clock => (true, clock);
     time_Now := fun clock => (clock, clock + 1);
     map_seed := fun clock => (O, clock) |}.

(** A work tree that a failed squash leaves dirty: [git merge] refuses to
    start on a dirty tree, and [git merge --abort] or [git reset] would
    clean it.  [conflicting] lists the branches whose squash conflicts. *)
Record Worktree := mkTree {
  dirty : bool;
  commits : nat
}.

Definition worktreeGit (conflicting : list string) (args : list string)
  (w : Worktree) : ExecResult * Worktree :=
  let done := fun ok w' => ({| exit_ok := ok; stdout := "4f2a9c1" +:+ newline;
                               combined := "" |}, w') in
  match args with
  | ["merge"; "--squash"; branch] =>
      if dirty w then done false w
      else if bool_decide (branch ∈ conflicting)
           then done false (mkTree true (commits w))
           else done true w
  | ["merge"; "--abort"] => done true (mkTree false (commits w))
  | "reset" :: _ => done true (mkTree false (commits w))
  | "commit" :: _ =>
      if dirty w then done false w else done true (mkTree false (S (commits w)))
  | _ => done true w
  end.

Definition worktreeHost (conflicting : list string) : Host Worktree :=
  {| exec_git := worktreeGit conflicting;
     http_Do := fun _ w => (TransportError, w);
     os_WriteFile := fun _ _ w => (true, w);
     os_OpenAppend := fun _ w => (true, w);
     file_Append := fun _ _ w => (true, w);
     time_Now := fun w => (0, w);
     map_seed := fun w => (O, w) |}.

(** A stand-in for the JSON library: the API answers with the two pull
    requests below whatever the body, and a history is rendered as the
    list of its pull request numbers and commits. *)
Definition rawFirst : RawPR :=
  {| raw_Number := 10; raw_Title := "Add search"; raw_State := "open";
     raw_CreatedAt := "2024-05-01T09:00:00Z"; raw_BaseRef := "main";
     raw_Labels := [mkLabel "next-feature"] |}.

Definition rawSecond : RawPR :=
  {| raw_Number := 11; raw_Title := "Fix crash"; raw_State := "open";
     raw_CreatedAt := "2024-05-02T09:00:00Z"; raw_BaseRef := "main";
     raw_Labels := [mkLabel "bug"] |}.

Definition renderRecord (r : MergeRecord) : string :=
  itoa (PR r) +:+ ":" +:+ Commit r +:+ "@" +:+ itoa (Timestamp r).

Definition toyEncoding : Encoding :=
  {| http_NewRequest_ok := fun _ => true;
     json_Decode := fun _ => Some [rawFirst; rawSecond];
     json_MarshalIndent := fun h =>
       Some (String.concat ";" (map renderRecord (Merges h))) |}.

Definition prFirst : GitHubPR := toPR rawFirst.
Definition prSecond : GitHubPR := toPR rawSecond.

Definition freshRun : World Z := mkWorld 0 [].
Definition cleanTree : World Worktree := mkWorld (mkTree false O) [].

Definition demoFlags : Flags :=
  {| flag_github_token := Some "t0ken";
     flag_owner := Some "acme";
     flag_repo := Some "shop";
     flag_trunk_branch := None;
     flag_target_branch := None;
     flag_labels := None;
     flag_github_output := Some "/tmp/out" |}.

Definition demoConfig : Config :=
  {| GithubToken := "t0ken"; Owner := "acme"; Repo := "shop";
     TrunkBranch := "main"; TargetBranch := "pre-main";
     RequiredLabels := []; GitHubOutput := "/tmp/out" |}.

(** ** Further notions *)

(** A byte that [strings.TrimSpace] keeps on its ASCII path. *)
Definition solidByte (c : ascii) : bool :=
  negb (is_rune_start c) && negb (asciiSpace c).

(** A byte that [strings.TrimSpace] drops on its ASCII path. *)
Definition blankByte (c : ascii) : bool :=
  negb (is_rune_start c) && asciiSpace c.

(** The command line of one entry of [configs]. *)
Definition configCommand (entry : string * string) : list string :=
  ["config"; "--global"; fst entry; snd entry].

(** The events of [prepareTargetBranch], given how each command it runs
    ended: check out trunk, look for the target branch, delete it when it
    is there, create it. *)
Definition resetEvents (cfg : Config) (okTrunk found okDelete okCreate : bool)
  : list Event :=
  EvGit ["checkout"; TrunkBranch cfg] okTrunk ::
  (if okTrunk then
     EvGit ["show-ref"; "--verify"; "refs/heads/" +:+ TargetBranch cfg] found ::
     (if found then
        EvGit ["branch"; "-D"; TargetBranch cfg] okDelete ::
        (if okDelete then [EvGit ["checkout"; "-B"; TargetBranch cfg] okCreate]
         else [])
      else [EvGit ["checkout"; "-B"; TargetBranch cfg] okCreate])
   else []).

(** Whether the commands of [prepareTargetBranch] let it return. *)
Definition resetDone (okTrunk found okDelete okCreate : bool) : bool :=
  okTrunk && implb found okDelete && okCreate.

(** The pull request numbers of the failures logged in a trace. *)
Definition failuresLogged (tr : list Event) : list Z :=
  omap (fun ev => match ev with
                  | EvLog (LogPRFailed n _) => Some n
                  | _ => None
                  end) tr.

Definition notFatalLog (ev : Event) : bool := negb (isFatalLog ev).

(** Events of the work before publishing: local [git] commands, the query,
    the history file, log lines.  No push and no call to the output sink. *)
Definition isLocalStep (ev : Event) : bool :=
  match ev with
  | EvGit (cmd :: _) _ => negb (String.eqb cmd "push")
  | EvGit [] _ => true
  | EvHttp _ _ | EvLog _ | EvWriteFile _ _ _ => true
  | EvOpenAppend _ _ | EvAppend _ _ _ => false
  end.

(** Events that leave the work tree alone: [git config], the query, log
    lines. *)
Definition isSetupStep (ev : Event) : bool :=
  match ev with
  | EvGit (cmd :: _) _ => String.eqb cmd "config"
  | EvHttp _ _ | EvLog _ => true
  | _ => false
  end.

(** How a call that may end the process logs: a call that returns has
    logged nothing fatal; a call that ends the process does so with status
    1 and one fatal line, the last event. *)
Definition fatalDiscipline {Env A} (m : Proc Env A) : Prop :=
  ∀ s, match m s with
       | (Returned _, s') =>
           ∃ evs, trace s' = trace s ++ evs ∧ forallb notFatalLog evs = true
       | (Exited code, s') =>
           code = 1 ∧
           ∃ evs what err,
             trace s' = trace s ++ evs ++ [EvLog (LogFatal what err)] ∧
             forallb notFatalLog evs = true
       end.

(** The first three stages of [main]: configuration, global git setup
    and the query. *)
Definition query {Env : Type} `{H : Host Env} `{U : Unicode} `{E : Encoding}
  (cl : CommandLine) : Proc Env (Config * list GitHubPR) :=
  run* cfg := mustParseConfig cl in
  run* _ := mustSetupGitConfig in
  run* prs := mustFetchQualifiedPRs cfg in
  retP (cfg, prs).

(** The flags of [demoFlags] with one required label. *)
Definition labelledFlags : Flags :=
  {| flag_github_token := Some "t0ken";
     flag_owner := Some "acme";
     flag_repo := Some "shop";
     flag_trunk_branch := None;
     flag_target_branch := None;
     flag_labels := Some "Next-Feature";
     flag_github_output := Some "/tmp/out" |}.


(** The requests of a trace, with their responses. *)
Definition httpCalls (tr : list Event) : list (Request * HttpOutcome) :=
  omap (fun ev => match ev with
                  | EvHttp req res => Some (req, res)
                  | _ => None
                  end) tr.

(** Events of the configuration and the global git setup. *)
Definition isConfigStep (ev : Event) : bool :=
  match ev with
  | EvGit (cmd :: _) _ => String.eqb cmd "config"
  | EvLog _ => true
  | _ => false
  end.

Definition notHttp (ev : Event) : bool :=
  match ev with
  | EvHttp _ _ => false
  | _ => true
  end.





(** * Properties *)

(** ** Lower-casing of ASCII text *)

Lemma byte_val_inj (c d : ascii) : byte_val c = byte_val d → c = d.
Proof.
  unfold byte_val. intros Heq.
  rewrite <- (ascii_N_embedding c), <- (ascii_N_embedding d). by rewrite Heq.
Qed.

Lemma byte_val_lowerByte (c : ascii) :
  byte_val (lowerByte c)
  = if isUpperByte c then (byte_val c + 32)%N else byte_val c.
Proof.
  unfold lowerByte. destruct (isUpperByte c) eqn:Hup; [|done].
  unfold byte_val in *. apply N_ascii_embedding.
  unfold isUpperByte, byte_val in Hup. apply andb_prop in Hup as [_ Hle].
  apply N.leb_le in Hle. lia.
Qed.

(** Lower-casing identifies exactly the two forms of a letter. *)
Lemma lowerByte_eq (c d : ascii) : lowerByte c = lowerByte d ↔ sameLetter c d.
Proof.
  unfold sameLetter. split.
  - intros Heq. apply (f_equal byte_val) in Heq. rewrite !byte_val_lowerByte in Heq.
    destruct (isUpperByte c) eqn:Hc, (isUpperByte d) eqn:Hd.
    + left. apply byte_val_inj. lia.
    + right; left. split; [done|]. lia.
    + right; right. split; [done|]. lia.
    + left. by apply byte_val_inj.
  - intros [->|[[Hc Hd]|[Hd Hc]]]; [done| |]; apply byte_val_inj;
      rewrite !byte_val_lowerByte.
    + rewrite Hc. destruct (isUpperByte d) eqn:Hd'; [|lia].
      unfold isUpperByte in *. apply andb_prop in Hc as [Hc1 Hc2].
      apply andb_prop in Hd' as [Hd1 Hd2].
      apply N.leb_le in Hc1, Hc2, Hd1, Hd2. lia.
    + rewrite Hd. destruct (isUpperByte c) eqn:Hc'; [|lia].
      unfold isUpperByte in *. apply andb_prop in Hd as [Hd1 Hd2].
      apply andb_prop in Hc' as [Hc1 Hc2].
      apply N.leb_le in Hc1, Hc2, Hd1, Hd2. lia.
Qed.

Lemma mapBytes_lowerByte_eq (a b : string) :
  mapBytes lowerByte a = mapBytes lowerByte b ↔
  Forall2 sameLetter (bytes_of_string a) (bytes_of_string b).
Proof.
  revert b. induction a as [|c a IH]; intros [|d b]; simpl.
  - split; [constructor|done].
  - split; [done|]. intros Hall. inversion Hall.
  - split; [done|]. intros Hall. inversion Hall.
  - split.
    + intros [= Hcd Hab]. constructor; [by apply lowerByte_eq|by apply IH].
    + intros Hall. apply Forall2_cons_1 in Hall as [Hcd Hab].
      apply lowerByte_eq in Hcd. apply IH in Hab. by rewrite Hcd, Hab.
Qed.

(** On ASCII text the comparison of the label filter is equality up to
    the case of the letters. *)
Lemma equalFold_ascii `{U : Unicode} (a b : string) :
  isASCII a = true → isASCII b = true →
  (equalFold a b ↔ Forall2 sameLetter (bytes_of_string a) (bytes_of_string b)).
Proof.
  intros Ha Hb. unfold equalFold, ToLower. rewrite Ha, Hb.
  apply mapBytes_lowerByte_eq.
Qed.

(** ** The order of a [range] over a map *)

Lemma insert_at_Permutation {A} (k : nat) (x : A) (l : list A) :
  insert_at k x l ≡ₚ x :: l.
Proof.
  revert k. induction l as [|y l IH]; intros [|k]; simpl; try done.
  rewrite IH. apply Permutation_swap.
Qed.

Lemma shuffle_Permutation {A} (seed : nat) (l : list A) : shuffle seed l ≡ₚ l.
Proof.
  revert seed. induction l as [|x l IH]; intros seed; simpl; [done|].
  by rewrite insert_at_Permutation, IH.
Qed.

(** ** The label filter *)

Section LabelFilterFacts.
Context `{U : Unicode}.

Lemma prLabelSet_acc (prLabels : list string) (acc : gset string) (x : string) :
  x ∈ foldl (fun set l => {[ ToLower l ]} ∪ set) acc prLabels ↔
  x ∈ acc ∨ ∃ l, l ∈ prLabels ∧ x = ToLower l.
Proof.
  revert acc. induction prLabels as [|l ls IH]; intros acc; simpl.
  - split; [auto|]. intros [?|(l & Hl & _)]; [done|]. by apply elem_of_nil in Hl.
  - rewrite IH. rewrite elem_of_union, elem_of_singleton. split.
    + intros [[->|?]|(l' & ? & ->)]; [right; exists l|by left|right; exists l'];
        split; auto; constructor; done.
    + intros [?|(l' & Hl' & ->)]; [by left; right|].
      apply elem_of_cons in Hl' as [->|?]; [by left; left|right; by exists l'].
Qed.

Lemma elem_of_prLabelSet (prLabels : list string) (x : string) :
  x ∈ prLabelSet prLabels ↔ ∃ l, l ∈ prLabels ∧ x = ToLower l.
Proof.
  unfold prLabelSet. rewrite prLabelSet_acc. split; [|auto].
  intros [Hx|?]; [|done]. by apply not_elem_of_empty in Hx.
Qed.

Lemma anyRequired_true (set : gset string) (required : list string) :
  anyRequired set required = true ↔ ∃ r, r ∈ required ∧ ToLower r ∈ set.
Proof.
  induction required as [|req rest IH]; simpl.
  - split; [done|]. intros (r & Hr & _). by apply elem_of_nil in Hr.
  - case_bool_decide as Hin.
    + split; [|done]. intros _. exists req. split; [constructor|done].
    + rewrite IH. split.
      * intros (r & ? & ?). exists r. split; [by constructor|done].
      * intros (r & Hr & ?). apply elem_of_cons in Hr as [->|?]; [done|by exists r].
Qed.

Lemma hasAnyLabel_true (prLabels required : list string) :
  hasAnyLabel prLabels required = true ↔
  required = [] ∨ ∃ l r, l ∈ prLabels ∧ r ∈ required ∧ equalFold l r.
Proof.
  unfold hasAnyLabel, equalFold. destruct required as [|req rest].
  - split; auto.
  - change (List.length (req :: rest) =? 0)%nat with false. cbv iota.
    rewrite anyRequired_true. split.
    + intros (r & Hr & Hin). right. apply elem_of_prLabelSet in Hin as (l & ? & ?).
      by exists l, r.
    + intros [?|(l & r & ? & ? & Heq)]; [done|]. exists r. split; [done|].
      apply elem_of_prLabelSet. by exists l.
Qed.

Lemma qualifies_labels (required : list string) (pr : GitHubPR) :
  qualifies required pr ↔
  required = [] ∨ ∃ l r, l ∈ Labels pr ∧ r ∈ required ∧ equalFold l r.
Proof.
  unfold qualifies. rewrite Exists_exists. split.
  - intros [?|(l & ? & Hr)]; [by left|right].
    apply Exists_exists in Hr as (r & ? & ?). by exists l, r.
  - intros [?|(l & r & ? & ? & ?)]; [by left|right]. exists l. split; [done|].
    apply Exists_exists. by exists r.
Qed.

Lemma hasAnyLabel_qualifies (required : list string) (pr : GitHubPR) :
  hasAnyLabel (Labels pr) required = true ↔ qualifies required pr.
Proof. by rewrite hasAnyLabel_true, qualifies_labels. Qed.

Lemma filterPRs_acc (prs acc : list GitHubPR) (required : list string) :
  foldl (fun filtered pr =>
           if hasAnyLabel (Labels pr) required then filtered ++ [pr] else filtered)
        acc prs
  = acc ++ filter (qualifies required) prs.
Proof.
  revert acc. induction prs as [|pr prs IH]; intros acc; simpl.
  - by rewrite app_nil_r.
  - rewrite IH, filter_cons. destruct (hasAnyLabel (Labels pr) required) eqn:Hany.
    + apply hasAnyLabel_qualifies in Hany. rewrite decide_True by done.
      by rewrite <- app_assoc.
    + rewrite decide_False; [done|]. rewrite <- hasAnyLabel_qualifies. congruence.
Qed.

Lemma filterPRs_filter (prs : list GitHubPR) (required : list string) :
  filterPRs prs required = filter (qualifies required) prs.
Proof. unfold filterPRs. by rewrite filterPRs_acc. Qed.

(** C4: the label filter keeps a candidate exactly when the required set
    is empty or one of its labels equals a required label after
    lower-casing, which for ASCII labels is equality up to the case of the
    letters; the result is the input with the other candidates removed, in
    the input's order; and the required label "Next-Feature" matches the
    candidate label "next-feature". *)
Theorem filterPRs_contract (prs : list GitHubPR) (required : list string) :
  filterPRs prs required = filter (qualifies required) prs ∧
  sublist (filterPRs prs required) prs ∧
  (∀ pr, pr ∈ filterPRs prs required ↔
         pr ∈ prs ∧
         (required = [] ∨ ∃ l r, l ∈ Labels pr ∧ r ∈ required ∧ equalFold l r)) ∧
  (∀ pr, hasAnyLabel (Labels pr) required = true ↔
         required = [] ∨ ∃ l r, l ∈ Labels pr ∧ r ∈ required ∧ equalFold l r) ∧
  (∀ a b, isASCII a = true → isASCII b = true →
          (equalFold a b ↔
           Forall2 sameLetter (bytes_of_string a) (bytes_of_string b))) ∧
  equalFold "next-feature" "Next-Feature" ∧
  (∀ pr, "next-feature" ∈ Labels pr → pr ∈ prs →
         pr ∈ filterPRs prs ["Next-Feature"]).
Proof.
  rewrite !filterPRs_filter. split; [done|]. split; [apply sublist_filter|].
  split; [|split; [|split; [|split]]].
  - intros pr. by rewrite list_elem_of_filter, qualifies_labels, (comm and).
  - intros pr. apply hasAnyLabel_true.
  - apply equalFold_ascii.
  - reflexivity.
  - intros pr Hl Hpr. apply list_elem_of_filter. split; [|done].
    apply qualifies_labels. right. exists "next-feature", "Next-Feature".
    split; [done|]. split; [constructor|reflexivity].
Qed.

(** C8: with an empty required set the label filter returns its input. *)
Theorem filterPRs_no_labels (prs : list GitHubPR) :
  filterPRs prs [] = prs.
Proof.
  rewrite filterPRs_filter. induction prs as [|pr prs IH]; [done|].
  rewrite filter_cons, decide_True by (by left). by rewrite IH.
Qed.

End LabelFilterFacts.

(** ** Label parsing *)

Lemma SplitByte_not_nil (sep : ascii) (s : string) : SplitByte sep s ≠ [].
Proof.
  destruct s as [|c s]; simpl; [done|].
  destruct (Ascii.eqb c sep); [done|]. by destruct (SplitByte sep s).
Qed.

Lemma concat_cons_byte (sep : string) (c : ascii) (piece : string)
  (pieces : list string) :
  String.concat sep (String c piece :: pieces)
  = String c (String.concat sep (piece :: pieces)).
Proof. by destruct pieces. Qed.

(** Joining the pieces with the separator gives the text back: nothing is
    trimmed and no piece is dropped. *)
Lemma SplitByte_join (sep : ascii) (s : string) :
  String.concat (String sep EmptyString) (SplitByte sep s) = s.
Proof.
  induction s as [|c s IH]; simpl; [done|].
  destruct (Ascii.eqb_spec c sep) as [->|Hne].
  - destruct (SplitByte sep s) as [|piece pieces] eqn:Hsplit.
    + by apply SplitByte_not_nil in Hsplit.
    + simpl in *. by rewrite IH.
  - destruct (SplitByte sep s) as [|piece pieces] eqn:Hsplit.
    + by apply SplitByte_not_nil in Hsplit.
    + rewrite concat_cons_byte. by rewrite IH.
Qed.

Lemma SplitByte_pieces (sep : ascii) (s piece : string) :
  piece ∈ SplitByte sep s → sep ∉ bytes_of_string piece.
Proof.
  revert piece. induction s as [|c s IH]; intros piece; simpl.
  - intros ->%list_elem_of_singleton. apply not_elem_of_nil.
  - destruct (Ascii.eqb_spec c sep) as [->|Hne].
    + intros [->|?]%elem_of_cons; [apply not_elem_of_nil|by apply IH].
    + destruct (SplitByte sep s) as [|p ps] eqn:Hsplit.
      * by apply SplitByte_not_nil in Hsplit.
      * intros [->|?]%elem_of_cons.
        -- simpl. intros [?|?]%elem_of_cons; [congruence|].
           eapply IH; [|done]. constructor.
        -- apply IH. by constructor.
Qed.

(** C9: label parsing splits on commas verbatim.  Only the empty text
    gives the empty required set; otherwise the pieces joined by commas are
    the text itself and no piece holds a comma, so nothing is trimmed and
    empty pieces stay; a piece matches a label only when both are equal
    after lower-casing, so the text "a, b" does not match the label "b". *)
Theorem parseLabels_verbatim :
  (∀ input, parseLabels input = [] ↔ input = "") ∧
  (∀ input, String.concat "," (parseLabels input) = input) ∧
  (∀ input piece, piece ∈ parseLabels input →
                  ("," : ascii) ∉ bytes_of_string piece) ∧
  parseLabels "," = [""; ""] ∧
  parseLabels "a, b" = ["a"; " b"] ∧
  (∀ (U : Unicode) input prLabels, input ≠ "" →
     (hasAnyLabel prLabels (parseLabels input) = true ↔
      ∃ l r, l ∈ prLabels ∧ r ∈ parseLabels input ∧ ToLower l = ToLower r)) ∧
  (∀ U : Unicode,
     hasAnyLabel ["b"] (parseLabels "a, b") = false ∧
     hasAnyLabel [" B"] (parseLabels "a, b") = true ∧
     hasAnyLabel ["b"] (parseLabels ",") = false ∧
     hasAnyLabel [""] (parseLabels ",") = true ∧
     hasAnyLabel ["b"] (parseLabels "") = true).
Proof.
  assert (Hnil : ∀ input, parseLabels input = [] ↔ input = "").
  { intros input. unfold parseLabels. destruct (String.eqb_spec input "") as [->|Hne].
    - done.
    - split; [|done]. intros Hsplit. by apply SplitByte_not_nil in Hsplit. }
  split; [exact Hnil|]. split; [|split; [|split; [|split; [|split]]]].
  - intros input. unfold parseLabels.
    destruct (String.eqb_spec input "") as [->|Hne]; [done|apply SplitByte_join].
  - intros input piece. unfold parseLabels.
    destruct (String.eqb_spec input "") as [->|Hne].
    + by intros ?%elem_of_nil.
    + apply SplitByte_pieces.
  - reflexivity.
  - reflexivity.
  - intros U input prLabels Hne. rewrite hasAnyLabel_true. split.
    + intros [Hempty|?]; [|done]. by apply Hnil in Hempty.
    + by right.
  - intros U. repeat split; vm_compute; reflexivity.
Qed.

(** ** The integration loop *)

Section LoopFacts.
Context {Env : Type} `{H : Host Env} `{U : Unicode}.

Lemma runGitCommand_run (args : list string) (s : World Env) :
  runGitCommand args s =
  (let r := fst (exec_git args (env s)) in
   if exit_ok r then None else Some (GitFailed args (combined r)),
   mkWorld (snd (exec_git args (env s)))
           (trace s ++ [EvGit args (exit_ok (fst (exec_git args (env s))))])).
Proof.
  unfold runGitCommand, bind, ret, call_git.
  by destruct (exec_git args (env s)) as [r e].
Qed.

Lemma runGitCommand_trace (args : list string) (s : World Env) :
  trace (snd (runGitCommand args s))
  = trace s ++ [EvGit args (isNil (fst (runGitCommand args s)))].
Proof.
  rewrite runGitCommand_run. simpl.
  by destruct (exit_ok (fst (exec_git args (env s)))).
Qed.

Lemma processSinglePR_trace (pr : GitHubPR) (s : World Env) :
  ∃ okFetch okSquash okCommit,
    trace (snd (processSinglePR pr s))
    = trace s ++ attemptEvents pr okFetch okSquash okCommit ∧
    isNil (fst (processSinglePR pr s)) = okFetch && okSquash && okCommit.
Proof.
  unfold processSinglePR, bind, ret. rewrite !runGitCommand_run. simpl.
  destruct (exec_git (fetchArgs pr) (env s)) as [[[] ? ?] e1]; simpl.
  - rewrite !runGitCommand_run. simpl.
    destruct (exec_git (squashArgs pr) e1) as [[[] ? ?] e2]; simpl.
    + rewrite !runGitCommand_run. simpl.
      destruct (exec_git (commitArgs pr) e2) as [[[] ? ?] e3]; simpl.
      * exists true, true, true. by rewrite <- !app_assoc.
      * exists true, true, false. by rewrite <- !app_assoc.
    + exists true, false, false. by rewrite <- !app_assoc.
  - by exists false, false, false.
Qed.

Lemma createMergeRecord_run (pr : GitHubPR) (s : World Env) :
  createMergeRecord pr s =
  (let r := fst (exec_git ["rev-parse"; "HEAD"] (env s)) in
   let e := snd (exec_git ["rev-parse"; "HEAD"] (env s)) in
   ({| PR := Number pr;
       Commit := if exit_ok r then TrimSpace (stdout r) else "unknown";
       Timestamp := fst (time_Now e) |},
    mkWorld (snd (time_Now e))
            (trace s ++ [EvGit ["rev-parse"; "HEAD"] (exit_ok r)]))).
Proof.
  unfold createMergeRecord, getLatestCommitSHA, bind, ret, call_git, call_Now.
  destruct (exec_git ["rev-parse"; "HEAD"] (env s)) as [r e]. simpl.
  by destruct (time_Now e).
Qed.

Lemma processPRs_range_cons (pr : GitHubPR) (rest : list GitHubPR)
  (acc : list MergeRecord) (s : World Env) :
  processPRs_range (pr :: rest) acc s =
  match processSinglePR pr s with
  | (Some e, s1) =>
      processPRs_range rest acc (snd (log_Printf (LogPRFailed (Number pr) e) s1))
  | (None, s1) =>
      let '(record, s2) := createMergeRecord pr s1 in
      processPRs_range rest (acc ++ [record]) s2
  end.
Proof.
  simpl. unfold bind at 1. destruct (processSinglePR pr s) as [[e|] s1].
  - by unfold bind, log_Printf, emit.
  - unfold bind. by destruct (createMergeRecord pr s1) as [record s2].
Qed.

Lemma processPRs_range_acc (prs : list GitHubPR) (acc : list MergeRecord)
  (s : World Env) :
  processPRs_range prs acc s
  = (acc ++ fst (processPRs_range prs [] s), snd (processPRs_range prs [] s)).
Proof.
  revert acc s. induction prs as [|pr rest IH]; intros acc s.
  - simpl. unfold ret. simpl. by rewrite app_nil_r.
  - rewrite !processPRs_range_cons. destruct (processSinglePR pr s) as [[e|] s1].
    + apply IH.
    + destruct (createMergeRecord pr s1) as [record s2].
      rewrite (IH (acc ++ [record])), (IH ([] ++ [record])). simpl.
      by rewrite <- app_assoc.
Qed.

(** The loop, one candidate at a time. *)
Lemma processPRs_cons (pr : GitHubPR) (rest : list GitHubPR) (s : World Env) :
  processPRs (pr :: rest) s =
  match processSinglePR pr s with
  | (Some e, s1) =>
      processPRs rest (snd (log_Printf (LogPRFailed (Number pr) e) s1))
  | (None, s1) =>
      let '(record, s2) := createMergeRecord pr s1 in
      (record :: fst (processPRs rest s2), snd (processPRs rest s2))
  end.
Proof.
  unfold processPRs. rewrite processPRs_range_cons.
  destruct (processSinglePR pr s) as [[e|] s1]; [done|].
  destruct (createMergeRecord pr s1) as [record s2].
  by rewrite processPRs_range_acc.
Qed.

Lemma processPRs_nil (s : World Env) : processPRs [] s = ([], s).
Proof. done. Qed.

Lemma fetched_app (tr1 tr2 : list Event) :
  fetched (tr1 ++ tr2) = fetched tr1 ++ fetched tr2.
Proof. unfold fetched, gitCommands. by rewrite omap_app, List.filter_app. Qed.

Lemma fetched_attempt (pr : GitHubPR) (okFetch okSquash okCommit : bool) :
  fetched (attemptEvents pr okFetch okSquash okCommit) = [fetchArgs pr].
Proof. by destruct okFetch, okSquash. Qed.

(** Every candidate is fetched, in the order of the list, whatever became
    of the candidates before it. *)
Lemma processPRs_fetched (prs : list GitHubPR) (s : World Env) :
  fetched (trace (snd (processPRs prs s)))
  = fetched (trace s) ++ map fetchArgs prs.
Proof.
  revert s. induction prs as [|pr rest IH]; intros s.
  - simpl. by rewrite app_nil_r.
  - rewrite processPRs_cons.
    destruct (processSinglePR_trace pr s) as (okF & okS & okC & Htr & _).
    destruct (processSinglePR pr s) as [[e|] s1]; simpl in Htr.
    + rewrite IH. simpl. rewrite Htr, !fetched_app, fetched_attempt.
      simpl. by rewrite app_nil_r, <- app_assoc.
    + rewrite createMergeRecord_run. simpl. rewrite IH. simpl.
      rewrite Htr, !fetched_app, fetched_attempt. simpl.
      by rewrite app_nil_r, <- app_assoc.
Qed.

Lemma verdicts_candidates (prs : list GitHubPR) (s : World Env) :
  map fst (verdicts prs s) = prs.
Proof.
  revert s. induction prs as [|pr rest IH]; intros s; simpl; [done|].
  destruct (processSinglePR pr s) as [[e|] s1]; simpl.
  - by rewrite IH.
  - destruct (createMergeRecord pr s1) as [record s2]. simpl. by rewrite IH.
Qed.

Lemma processPRs_verdicts (prs : list GitHubPR) (s : World Env) :
  fst (processPRs prs s) = omap snd (verdicts prs s).
Proof.
  revert s. induction prs as [|pr rest IH]; intros s; [done|].
  rewrite processPRs_cons. simpl.
  destruct (processSinglePR pr s) as [[e|] s1]; simpl.
  - apply IH.
  - destruct (createMergeRecord pr s1) as [record s2]. simpl. by rewrite IH.
Qed.

Lemma verdicts_record (prs : list GitHubPR) (s : World Env) (pr : GitHubPR)
  (record : MergeRecord) :
  (pr, Some record) ∈ verdicts prs s → PR record = Number pr.
Proof.
  revert s. induction prs as [|pr' rest IH]; intros s; simpl.
  - by intros ?%elem_of_nil.
  - destruct (processSinglePR pr' s) as [[e|] s1].
    + intros [?|?]%elem_of_cons; [done|by eapply IH].
    + rewrite createMergeRecord_run. simpl.
      intros [Heq|?]%elem_of_cons; [|by eapply IH]. by inversion Heq.
Qed.

(** C1: a candidate whose fetch, squash or commit fails is skipped and the
    candidates after it are still processed: a candidate succeeds exactly
    when its three commands do; every candidate gets a verdict and is
    fetched, in order; the records returned are those of the successful
    candidates, one each, in that order, and none for a failed one.  For candidates A, B where A fails and B then succeeds, the result
    is exactly one record, for B. *)
Theorem processPRs_skips_failures (prs : list GitHubPR) (s : World Env) :
  (∀ pr s0, ∃ okFetch okSquash okCommit,
     trace (snd (processSinglePR pr s0))
     = trace s0 ++ attemptEvents pr okFetch okSquash okCommit ∧
     isNil (fst (processSinglePR pr s0)) = okFetch && okSquash && okCommit) ∧
  map fst (verdicts prs s) = prs ∧
  fst (processPRs prs s) = omap snd (verdicts prs s) ∧
  (∀ pr record, (pr, Some record) ∈ verdicts prs s → PR record = Number pr) ∧
  fetched (trace (snd (processPRs prs s)))
    = fetched (trace s) ++ map fetchArgs prs ∧
  (∀ A B e s1 s2,
     prs = [A; B] →
     processSinglePR A s = (Some e, s1) →
     processSinglePR B (snd (log_Printf (LogPRFailed (Number A) e) s1)) = (None, s2) →
     ∃ record, fst (processPRs prs s) = [record] ∧ PR record = Number B).
Proof.
  split; [apply processSinglePR_trace|].
  split; [apply verdicts_candidates|]. split; [apply processPRs_verdicts|].
  split; [apply verdicts_record|]. split; [apply processPRs_fetched|].
  intros A B e s1 s2 -> HA HB. rewrite processPRs_cons, HA.
  rewrite processPRs_cons, HB. rewrite createMergeRecord_run. simpl. eauto.
Qed.

(** C10: creating an integration record never fails.  The record carries
    the candidate's number; when resolving HEAD fails its commit field is
    the text "unknown", otherwise the trimmed output of the command; so the
    field is not empty as long as a successful [git rev-parse HEAD] prints
    an identifier. *)
Theorem createMergeRecord_never_fails (pr : GitHubPR) (s : World Env) :
  let r := fst (exec_git ["rev-parse"; "HEAD"] (env s)) in
  let record := fst (createMergeRecord pr s) in
  PR record = Number pr ∧
  (exit_ok r = false → Commit record = "unknown") ∧
  (exit_ok r = true → Commit record = TrimSpace (stdout r)) ∧
  ((exit_ok r = true → TrimSpace (stdout r) ≠ "") → Commit record ≠ "").
Proof.
  rewrite createMergeRecord_run. simpl.
  destruct (exit_ok (fst (exec_git ["rev-parse"; "HEAD"] (env s)))); simpl.
  - repeat split; [done|auto].
  - repeat split; done.
Qed.

End LoopFacts.

(** ** What each part of the run can emit *)

Section Emits.
Context {Env : Type} `{H : Host Env} `{U : Unicode} `{E : Encoding}.
Variable Q : Event → bool.

Lemma onlyEmits_ret {A} (a : A) : onlyEmits Q (ret (Env := Env) a).
Proof. intros s. exists []. by rewrite app_nil_r. Qed.

Lemma onlyEmits_retP {A} (a : A) : onlyEmits Q (retP (Env := Env) a).
Proof. intros s. exists []. by rewrite app_nil_r. Qed.

Lemma onlyEmits_bind {A B} (m : IO Env A) (k : A → IO Env B) :
  onlyEmits Q m → (∀ a, onlyEmits Q (k a)) → onlyEmits Q (bind m k).
Proof.
  intros Hm Hk s. unfold bind. destruct (Hm s) as (evs1 & Htr1 & HQ1).
  destruct (m s) as [a s1]. destruct (Hk a s1) as (evs2 & Htr2 & HQ2).
  exists (evs1 ++ evs2). simpl in *. rewrite Htr2, Htr1, <- app_assoc.
  split; [done|]. rewrite forallb_app. by rewrite HQ1, HQ2.
Qed.

Lemma onlyEmits_bindP {A B} (m : Proc Env A) (k : A → Proc Env B) :
  onlyEmits Q m → (∀ a, onlyEmits Q (k a)) → onlyEmits Q (bindP m k).
Proof.
  intros Hm Hk s. unfold bindP. destruct (Hm s) as (evs1 & Htr1 & HQ1).
  destruct (m s) as [[a|c] s1]; [|by exists evs1].
  destruct (Hk a s1) as (evs2 & Htr2 & HQ2).
  exists (evs1 ++ evs2). simpl in *. rewrite Htr2, Htr1, <- app_assoc.
  split; [done|]. rewrite forallb_app. by rewrite HQ1, HQ2.
Qed.

Lemma onlyEmits_lift {A} (m : IO Env A) : onlyEmits Q m → onlyEmits Q (lift m).
Proof.
  intros Hm s. unfold lift. destruct (Hm s) as (evs & Htr & HQ).
  destruct (m s) as [a s1]. by exists evs.
Qed.

Lemma onlyEmits_log_Fatal {A} (what : string) (err : error) :
  Q (EvLog (LogFatal what err)) = true →
  onlyEmits Q (log_Fatal (Env := Env) (A := A) what err).
Proof. intros HQ s. eexists [_]. split; [done|]. simpl. by rewrite HQ. Qed.

Lemma onlyEmits_log_Printf (entry : LogEntry) :
  Q (EvLog entry) = true → onlyEmits Q (log_Printf (Env := Env) entry).
Proof. intros HQ s. eexists [_]. split; [done|]. simpl. by rewrite HQ. Qed.

Lemma onlyEmits_call_git (args : list string) :
  (∀ ok, Q (EvGit args ok) = true) → onlyEmits Q (call_git args).
Proof.
  intros HQ s. unfold call_git. destruct (exec_git args (env s)) as [r e].
  eexists [_]. split; [done|]. simpl. by rewrite HQ.
Qed.

Lemma onlyEmits_runGitCommand (args : list string) :
  (∀ ok, Q (EvGit args ok) = true) → onlyEmits Q (runGitCommand args).
Proof.
  intros HQ. apply onlyEmits_bind; [by apply onlyEmits_call_git|].
  intros r. apply onlyEmits_ret.
Qed.

Lemma onlyEmits_call_http (req : Request) :
  (∀ res, Q (EvHttp req res) = true) → onlyEmits Q (call_http req).
Proof.
  intros HQ s. unfold call_http. destruct (http_Do req (env s)) as [r e].
  eexists [_]. split; [done|]. simpl. by rewrite HQ.
Qed.

Lemma onlyEmits_call_Now : onlyEmits Q call_Now.
Proof.
  intros s. unfold call_Now. destruct (time_Now (env s)).
  exists []. by rewrite app_nil_r.
Qed.

Lemma onlyEmits_call_seed : onlyEmits Q call_seed.
Proof.
  intros s. unfold call_seed. destruct (map_seed (env s)).
  exists []. by rewrite app_nil_r.
Qed.

Lemma onlyEmits_call_WriteFile (path data : string) :
  (∀ ok, Q (EvWriteFile path data ok) = true) →
  onlyEmits Q (call_WriteFile path data).
Proof.
  intros HQ s. unfold call_WriteFile.
  destruct (os_WriteFile path data (env s)) as [ok e].
  eexists [_]. split; [done|]. simpl. by rewrite HQ.
Qed.

End Emits.

Ltac emits_step :=
  first
    [ apply onlyEmits_ret
    | apply onlyEmits_retP
    | apply onlyEmits_call_Now
    | apply onlyEmits_call_seed
    | apply onlyEmits_runGitCommand; intros; reflexivity
    | apply onlyEmits_call_git; intros; reflexivity
    | apply onlyEmits_call_http; intros; reflexivity
    | apply onlyEmits_call_WriteFile; intros; reflexivity
    | apply onlyEmits_log_Fatal; reflexivity
    | apply onlyEmits_log_Printf; reflexivity
    | apply onlyEmits_lift
    | apply onlyEmits_bindP; [|intros ?]
    | apply onlyEmits_bind; [|intros ?]
    | match goal with
      | |- onlyEmits _ (match ?x with _ => _ end) => destruct x
      | |- onlyEmits _ (if ?x then _ else _) => destruct x
      end ].

Section PartsEmit.
Context {Env : Type} `{H : Host Env} `{U : Unicode} `{E : Encoding}.

Lemma mustParseConfig_emits (cl : CommandLine) :
  onlyEmits (Env := Env) isCommand (mustParseConfig cl).
Proof.
  unfold mustParseConfig. apply onlyEmits_bindP.
  - unfold parseConfig. apply onlyEmits_bindP.
    + destruct cl; [|apply onlyEmits_retP].
      intros s. exists []. by rewrite app_nil_r.
    + intros fl. repeat emits_step.
  - intros r. repeat emits_step.
Qed.

Lemma setupGitConfig_range_emits (entries : list (string * string)) :
  onlyEmits isCommand (setupGitConfig_range entries).
Proof.
  induction entries as [|[key value] rest IH]; simpl; [apply onlyEmits_ret|].
  apply onlyEmits_bind; [emits_step|]. intros [e|]; [emits_step|apply IH].
Qed.

Lemma mustSetupGitConfig_emits : onlyEmits isCommand mustSetupGitConfig.
Proof.
  unfold mustSetupGitConfig, setupGitConfig.
  apply onlyEmits_bindP; [|intros; repeat emits_step].
  apply onlyEmits_lift, onlyEmits_bind; [emits_step|].
  intros seed. apply setupGitConfig_range_emits.
Qed.

Lemma mustFetchQualifiedPRs_emits (cfg : Config) :
  onlyEmits isCommand (mustFetchQualifiedPRs cfg).
Proof. unfold mustFetchQualifiedPRs, fetchQualifiedPRs. repeat emits_step. Qed.

Lemma prepareTargetBranch_emits (cfg : Config) :
  onlyEmits isCommand (prepareTargetBranch cfg).
Proof. unfold prepareTargetBranch, branchExists. repeat emits_step. Qed.

Lemma preamble_emits (cl : CommandLine) : onlyEmits isCommand (preamble cl).
Proof.
  unfold preamble.
  apply onlyEmits_bindP; [apply mustParseConfig_emits|intros cfg].
  apply onlyEmits_bindP; [apply mustSetupGitConfig_emits|intros _].
  apply onlyEmits_bindP; [apply mustFetchQualifiedPRs_emits|intros prs].
  apply onlyEmits_bindP; [apply prepareTargetBranch_emits|intros _].
  apply onlyEmits_retP.
Qed.

Lemma processSinglePR_emits (pr : GitHubPR) :
  onlyEmits isCommand (processSinglePR pr).
Proof. unfold processSinglePR. repeat emits_step. Qed.

Lemma createMergeRecord_emits (pr : GitHubPR) :
  onlyEmits isCommand (createMergeRecord pr).
Proof. unfold createMergeRecord, getLatestCommitSHA. repeat emits_step. Qed.

Lemma processPRs_range_emits (prs : list GitHubPR) (acc : list MergeRecord) :
  onlyEmits isCommand (processPRs_range prs acc).
Proof.
  revert acc. induction prs as [|pr rest IH]; intros acc; simpl.
  - apply onlyEmits_ret.
  - apply onlyEmits_bind; [apply processSinglePR_emits|]. intros [e|].
    + apply onlyEmits_bind; [emits_step|]. intros _. apply IH.
    + apply onlyEmits_bind; [apply createMergeRecord_emits|]. intros r. apply IH.
Qed.

Lemma processPRs_emits (prs : list GitHubPR) :
  onlyEmits isCommand (processPRs prs).
Proof. apply processPRs_range_emits. Qed.

Lemma pushChanges_emits (cfg : Config) : onlyEmits isCommand (pushChanges cfg).
Proof. unfold pushChanges. emits_step. Qed.

End PartsEmit.

(** ** The whole run *)

Section MainFacts.
Context {Env : Type} `{H : Host Env} `{U : Unicode} `{E : Encoding}.

Lemma onlyEmits_weaken {X} (Q Q' : Event → bool) (m : World Env → X * World Env) :
  (∀ ev, Q ev = true → Q' ev = true) → onlyEmits Q m → onlyEmits Q' m.
Proof.
  intros HQ Hm s. destruct (Hm s) as (evs & Htr & Hall). exists evs.
  split; [done|]. apply forallb_forall. intros ev Hev.
  apply HQ. by eapply forallb_forall in Hall.
Qed.

Lemma isCommand_notOutput (ev : Event) : isCommand ev = true → notOutput ev = true.
Proof. by destruct ev. Qed.


(** [main] in one piece: the preamble, the loop, the recorder, the push and
    the deferred [setOutput]. *)
Lemma main_unfold (cl : CommandLine) (s : World Env) :
  main cl s =
  match preamble cl s with
  | (Exited code, s1) => (Exited code, s1)
  | (Returned (cfg, prs), s1) =>
      let '(merged, s2) := processPRs prs s1 in
      match updateRefHistory merged s2 with
      | (Some e, s3) => log_Fatal "error updating history:" e s3
      | (None, s3) =>
          (Returned tt,
           snd (setOutput cfg "target_branch" (TargetBranch cfg)
                          (snd (pushChanges cfg s3))))
      end
  end.
Proof.
  unfold main, preamble, updateMergeHistory, defer, bindP, lift, retP.
  destruct (mustParseConfig cl s) as [[cfg|code] s0]; [|done].
  destruct (mustSetupGitConfig s0) as [[[]|code] s0']; [|done].
  destruct (mustFetchQualifiedPRs cfg s0') as [[prs|code] s0'']; [|done].
  destruct (prepareTargetBranch cfg s0'') as [[[]|code] s1]; [|done].
  destruct (processPRs prs s1) as [merged s2].
  destruct (updateRefHistory merged s2) as [[e|] s3]; [done|]. cbv beta iota.
  destruct (pushChanges cfg s3) as [err s4]. simpl.
  by destruct (setOutput cfg "target_branch" (TargetBranch cfg) s4).
Qed.

Lemma updateRefHistory_events (merges : list MergeRecord) (s : World Env) :
  match json_MarshalIndent {| Merges := merges |} with
  | None =>
      trace (snd (updateRefHistory merges s)) = trace s ∧
      isNil (fst (updateRefHistory merges s)) = false
  | Some data =>
      ∃ okWrite okAdd okCommit,
        trace (snd (updateRefHistory merges s))
        = trace s ++ recorderEvents data okWrite okAdd okCommit ∧
        isNil (fst (updateRefHistory merges s)) = okWrite && okAdd && okCommit
  end.
Proof.
  unfold updateRefHistory. destruct (json_MarshalIndent _) as [data|]; [|done].
  unfold bind, ret, call_WriteFile.
  destruct (os_WriteFile refHistoryFile data (env s)) as [[] e1]; simpl.
  - rewrite runGitCommand_run. simpl.
    destruct (exec_git ["add"; refHistoryFile] e1) as [[[] ? ?] e2]; simpl.
    + rewrite runGitCommand_run. simpl.
      destruct (exec_git historyCommitArgs e2) as [[[] ? ?] e3]; simpl.
      * exists true, true, true. by rewrite <- !app_assoc.
      * exists true, true, false. by rewrite <- !app_assoc.
    + exists true, false, false. by rewrite <- !app_assoc.
  - by exists false, false, false.
Qed.

Lemma updateRefHistory_emits (merges : list MergeRecord) :
  onlyEmits notOutput (updateRefHistory merges).
Proof.
  intros s. pose proof (updateRefHistory_events merges s) as Hev.
  destruct (json_MarshalIndent _) as [data|].
  - destruct Hev as (okW & okA & okC & Htr & _). eexists. split; [exact Htr|].
    by destruct okW, okA.
  - destruct Hev as [Htr _]. exists []. by rewrite app_nil_r.
Qed.

Lemma setOutput_events (cfg : Config) (s : World Env) :
  ∃ okOpen okWrite,
    trace (snd (setOutput cfg "target_branch" (TargetBranch cfg) s))
    = trace s ++ outputEvents cfg okOpen okWrite.
Proof.
  unfold setOutput, bind, ret, call_OpenAppend, call_Append, outputEvents.
  destruct (os_OpenAppend (GitHubOutput cfg) (env s)) as [[] e1]; simpl.
  - destruct (file_Append _ _ e1) as [[] e2]; simpl.
    + exists true, true. by rewrite <- app_assoc.
    + exists true, false. by rewrite <- app_assoc.
  - by exists false, false.
Qed.

(** Everything before the deferred [setOutput]: what the run emits and
    whether it gets that far. *)
Lemma main_before_output (cl : CommandLine) (s : World Env) :
  match preamble cl s with
  | (Exited code, s1) => main cl s = (Exited code, s1)
  | (Returned (cfg, prs), s1) =>
      let merged := fst (processPRs prs s1) in
      let s2 := snd (processPRs prs s1) in
      match fst (updateRefHistory merged s2) with
      | Some e => fst (main cl s) = Exited 1
      | None =>
          ∃ okPush okOpen okWrite,
            fst (main cl s) = Returned tt ∧
            trace (snd (main cl s))
            = trace (snd (updateRefHistory merged s2))
              ++ EvGit (pushArgs cfg) okPush :: outputEvents cfg okOpen okWrite
      end
  end.
Proof.
  rewrite main_unfold. destruct (preamble cl s) as [[[cfg prs]|code] s1]; [|done].
  destruct (processPRs prs s1) as [merged s2]. simpl.
  destruct (updateRefHistory merged s2) as [[e|] s3]; simpl; [done|].
  destruct (setOutput_events cfg (snd (pushChanges cfg s3))) as (okO & okW & Hout).
  exists (isNil (fst (pushChanges cfg s3))), okO, okW. split; [done|].
  rewrite Hout. unfold pushChanges. rewrite runGitCommand_trace.
  by rewrite <- app_assoc.
Qed.

End MainFacts.

(** ** Order of integration and the state left by a failed candidate *)

Lemma Forall_of_sublist {A} (P : A → Prop) (k l : list A) :
  sublist k l → Forall P l → Forall P k.
Proof.
  induction 1 as [|x k l _ IH|x k l _ IH]; intros Hall; [done| |].
  - apply Forall_cons in Hall as [? ?]. constructor; auto.
  - apply Forall_cons in Hall as [? ?]. auto.
Qed.

Lemma StronglySorted_of_sublist {A} (R : relation A) (k l : list A) :
  sublist k l → StronglySorted R l → StronglySorted R k.
Proof.
  induction 1 as [|x k l Hsub IH|x k l Hsub IH]; intros Hsorted; [done| |].
  - apply StronglySorted_inv in Hsorted as [? ?]. constructor; [auto|].
    by eapply Forall_of_sublist.
  - apply StronglySorted_inv in Hsorted as [? ?]. auto.
Qed.

Section OrderFacts.
Context {Env : Type} `{H : Host Env} `{U : Unicode}.

Lemma gitCommands_app (tr1 tr2 : list Event) :
  gitCommands (tr1 ++ tr2) = gitCommands tr1 ++ gitCommands tr2.
Proof. apply omap_app. Qed.

Lemma gitCommands_attempt (pr : GitHubPR) (okF okS okC : bool) (args : list string) :
  args ∈ gitCommands (attemptEvents pr okF okS okC) →
  args = fetchArgs pr ∨ args = squashArgs pr ∨ args = commitArgs pr.
Proof.
  destruct okF, okS; simpl; intros Hin;
    repeat (apply elem_of_cons in Hin as [->|Hin]; [auto|]);
    by apply elem_of_nil in Hin.
Qed.

(** The loop runs no [git] command besides the three steps of each
    candidate and the reading of HEAD after a success. *)
Lemma processPRs_commands (prs : list GitHubPR) (s : World Env) :
  ∃ evs, trace (snd (processPRs prs s)) = trace s ++ evs ∧
    ∀ args, args ∈ gitCommands evs →
      args = ["rev-parse"; "HEAD"] ∨
      ∃ pr, pr ∈ prs ∧
        (args = fetchArgs pr ∨ args = squashArgs pr ∨ args = commitArgs pr).
Proof.
  revert s. induction prs as [|pr rest IH]; intros s.
  - exists []. rewrite app_nil_r. split; [done|]. by intros args ?%elem_of_nil.
  - rewrite processPRs_cons.
    destruct (processSinglePR_trace pr s) as (okF & okS & okC & Htr & _).
    destruct (processSinglePR pr s) as [[e|] s1]; simpl in Htr.
    + destruct (IH (snd (log_Printf (LogPRFailed (Number pr) e) s1)))
        as (evs & Hevs & Hcmds).
      eexists. split.
      { rewrite Hevs. simpl. rewrite Htr, <- !app_assoc. reflexivity. }
      intros args. rewrite !gitCommands_app, !elem_of_app. simpl.
      intros [Hin|[Hin|Hin]].
      * right. exists pr. split; [constructor|].
        exact (gitCommands_attempt pr okF okS okC args Hin).
      * by apply elem_of_nil in Hin.
      * destruct (Hcmds args Hin) as [?|(pr' & ? & ?)]; [by left|right].
        exists pr'. split; [by constructor|done].
    + rewrite createMergeRecord_run. simpl.
      match goal with |- context [processPRs rest ?s2] =>
        destruct (IH s2) as (evs & Hevs & Hcmds) end.
      eexists. split.
      { rewrite Hevs. simpl. rewrite Htr, <- !app_assoc. reflexivity. }
      intros args. rewrite !gitCommands_app, !elem_of_app. simpl.
      intros [Hin|[Hin|Hin]].
      * right. exists pr. split; [constructor|].
        exact (gitCommands_attempt pr okF okS okC args Hin).
      * apply list_elem_of_singleton in Hin. by left.
      * destruct (Hcmds args Hin) as [?|(pr' & ? & ?)]; [by left|right].
        exists pr'. split; [by constructor|done].
Qed.

Lemma processSinglePR_squash_failed (pr : GitHubPR) (s s1 : World Env) (e : error) :
  processSinglePR pr s = (Some (Wrap "squash merge failed" e), s1) →
  trace s1 = trace s ++ [EvGit (fetchArgs pr) true; EvGit (squashArgs pr) false] ∧
  env s1 = snd (exec_git (squashArgs pr) (snd (exec_git (fetchArgs pr) (env s)))).
Proof.
  unfold processSinglePR, bind, ret. rewrite !runGitCommand_run. simpl.
  destruct (exec_git (fetchArgs pr) (env s)) as [[[] ? ?] e1]; simpl; [|done].
  rewrite !runGitCommand_run. simpl.
  destruct (exec_git (squashArgs pr) e1) as [[[] ? ?] e2]; simpl.
  - rewrite !runGitCommand_run. simpl.
    by destruct (exec_git (commitArgs pr) e2) as [[[] ? ?] e3].
  - intros [= <- <-]. simpl. by rewrite <- app_assoc.
Qed.

Lemma processPRs_first_fetch (pr : GitHubPR) (rest : list GitHubPR) (s : World Env) :
  ∃ okFetch evs,
    trace (snd (processPRs (pr :: rest) s))
    = trace s ++ EvGit (fetchArgs pr) okFetch :: evs.
Proof.
  rewrite processPRs_cons.
  destruct (processSinglePR_trace pr s) as (okF & okS & okC & Htr & _).
  destruct (processSinglePR pr s) as [[e|] s1]; simpl in Htr.
  - destruct (processPRs_commands rest (snd (log_Printf (LogPRFailed (Number pr) e) s1)))
      as (evs & Hevs & _).
    eexists okF, _. rewrite Hevs. simpl. rewrite Htr, <- !app_assoc. reflexivity.
  - rewrite createMergeRecord_run. simpl.
    match goal with |- context [processPRs rest ?s2] =>
      destruct (processPRs_commands rest s2) as (evs & Hevs & _) end.
    eexists okF, _. rewrite Hevs. simpl. rewrite Htr, <- !app_assoc. reflexivity.
Qed.

(** C3, as the program has it: after a candidate's squash fails the
    pipeline runs no command to clean the work tree.  It logs the failure
    and goes on to the fetch of the next candidate in the state of the host
    that the failed squash left; the loop never runs a [git] command other
    than fetch, squash-merge, commit and the reading of HEAD. *)
Theorem failed_squash_is_not_cleaned (prs : list GitHubPR) (s : World Env) :
  (∃ evs, trace (snd (processPRs prs s)) = trace s ++ evs ∧
     ∀ args, args ∈ gitCommands evs →
       args = ["rev-parse"; "HEAD"] ∨
       ∃ pr, pr ∈ prs ∧
         (args = fetchArgs pr ∨ args = squashArgs pr ∨ args = commitArgs pr)) ∧
  (∀ pr next rest e s1,
     prs = pr :: next :: rest →
     processSinglePR pr s = (Some (Wrap "squash merge failed" e), s1) →
     let failure := EvLog (LogPRFailed (Number pr) (Wrap "squash merge failed" e)) in
     env s1 = snd (exec_git (squashArgs pr) (snd (exec_git (fetchArgs pr) (env s)))) ∧
     processPRs prs s = processPRs (next :: rest) (mkWorld (env s1) (trace s1 ++ [failure])) ∧
     ∃ okFetch evs,
       trace (snd (processPRs prs s))
       = trace s ++ [EvGit (fetchArgs pr) true; EvGit (squashArgs pr) false;
                     failure; EvGit (fetchArgs next) okFetch] ++ evs).
Proof.
  split; [apply processPRs_commands|].
  intros pr next rest e s1 -> Hfail failure.
  destruct (processSinglePR_squash_failed _ _ _ _ Hfail) as [Htr Henv].
  split; [done|]. rewrite processPRs_cons, Hfail. split; [done|].
  destruct (processPRs_first_fetch next rest
              (snd (log_Printf (LogPRFailed (Number pr) (Wrap "squash merge failed" e)) s1)))
    as (okFetch & evs & Hnext).
  exists okFetch, evs. rewrite Hnext. simpl. rewrite Htr, <- !app_assoc. done.
Qed.

(** C5, as the program has it: candidates are integrated in the order of
    the list the remote API returned, which the program asks to be sorted
    by creation time but does not sort itself.  The fetches follow the
    input order, the label filter keeps that order, and so the integration
    is in ascending creation order whenever the list received is. *)
Theorem integration_order_is_input_order (prs : list GitHubPR)
  (required : list string) (s : World Env) :
  fetched (trace (snd (processPRs prs s)))
    = fetched (trace s) ++ map fetchArgs prs ∧
  sublist (filterPRs prs required) prs ∧
  (StronglySorted createdBefore prs →
   StronglySorted createdBefore (filterPRs prs required) ∧
   fetched (trace (snd (processPRs (filterPRs prs required) s)))
     = fetched (trace s) ++ map fetchArgs (filterPRs prs required)).
Proof.
  split; [apply processPRs_fetched|].
  assert (Hsub : sublist (filterPRs prs required) prs).
  { rewrite filterPRs_filter. apply sublist_filter. }
  split; [done|]. intros Hsorted. split; [|apply processPRs_fetched].
  by eapply StronglySorted_of_sublist.
Qed.

End OrderFacts.

(** ** The output channel and the history file *)

Section RunFacts.
Context {Env : Type} `{H : Host Env} `{U : Unicode} `{E : Encoding}.

(** C6, as the program has it: the value [target_branch] is handed to the
    output sink exactly when [main] returns, that is when the preamble and
    the history recorder succeed, whatever the number of candidates that
    succeeded and whatever the push did; the line is then the last thing
    the run does.  A run that ends with a fatal error, in the preamble or
    in the history recorder, makes no call to the sink. *)
Theorem output_written_when_main_returns (cl : CommandLine) (s : World Env) :
  ∃ evs, trace (snd (main cl s)) = trace s ++ evs ∧
    match preamble cl s with
    | (Exited code, _) =>
        fst (main cl s) = Exited code ∧ forallb notOutput evs = true
    | (Returned (cfg, prs), s1) =>
        let merged := fst (processPRs prs s1) in
        let s2 := snd (processPRs prs s1) in
        match fst (updateRefHistory merged s2) with
        | Some _ =>
            fst (main cl s) = Exited 1 ∧ forallb notOutput evs = true
        | None =>
            ∃ before okOpen okWrite,
              fst (main cl s) = Returned tt ∧
              evs = before ++ outputEvents cfg okOpen okWrite ∧
              forallb notOutput before = true
        end
    end.
Proof.
  pose proof (main_before_output cl s) as Hmain. rewrite main_unfold in *.
  destruct (onlyEmits_weaken _ _ _ isCommand_notOutput (preamble_emits cl) s)
    as (evs0 & Htr0 & Hq0).
  destruct (preamble cl s) as [[[cfg prs]|code] s1]; simpl in *.
  2:{ exists evs0. by inversion Hmain. }
  destruct (onlyEmits_weaken _ _ _ isCommand_notOutput (processPRs_emits prs) s1)
    as (evs1 & Htr1 & Hq1).
  destruct (updateRefHistory_emits (fst (processPRs prs s1)) (snd (processPRs prs s1)))
    as (evs2 & Htr2 & Hq2).
  destruct (processPRs prs s1) as [merged s2]; simpl in *.
  destruct (updateRefHistory merged s2) as [[e|] s3]; simpl in *.
  - exists (evs0 ++ evs1 ++ evs2 ++ [EvLog (LogFatal "error updating history:" e)]).
    rewrite Htr2, Htr1, Htr0, <- !app_assoc. split; [done|]. split; [done|].
    rewrite !forallb_app, Hq0, Hq1, Hq2. done.
  - destruct Hmain as (okPush & okOpen & okWrite & _ & Htr).
    exists (evs0 ++ evs1 ++ evs2 ++ EvGit (pushArgs cfg) okPush
              :: outputEvents cfg okOpen okWrite).
    rewrite Htr, Htr2, Htr1, Htr0, <- !app_assoc. split; [done|].
    exists (evs0 ++ evs1 ++ evs2 ++ [EvGit (pushArgs cfg) okPush]), okOpen, okWrite.
    split; [done|]. rewrite <- !app_assoc. split; [done|].
    rewrite !forallb_app, Hq0, Hq1, Hq2. done.
Qed.

(** The push does not decide how the run ends. *)
Lemma main_push_result_ignored (cl : CommandLine) (s s1 : World Env)
  (cfg : Config) (prs : list GitHubPR) :
  preamble cl s = (Returned (cfg, prs), s1) →
  fst (updateRefHistory (fst (processPRs prs s1)) (snd (processPRs prs s1))) = None →
  exit_status (fst (main cl s)) = 0.
Proof.
  intros Hpre Hrec. rewrite main_unfold, Hpre.
  destruct (processPRs prs s1) as [merged s2]. simpl in *.
  by destruct (updateRefHistory merged s2) as [[e|] s3]; simpl in *.
Qed.




End RunFacts.

(** ** Concrete runs *)

(** C2: a run in which every step succeeds except the force-push.  [main]
    returns, so the process ends with status 0: the failed push is in the
    trace, nothing fatal is logged, and the output is written after it. *)
Theorem push_failure_is_ignored :
  let host := scripted [pushArgs demoConfig] (Response 200 "[]") in
  let run := main (H := host) (U := asciiOnly) (E := toyEncoding)
                  (Parsed demoFlags) freshRun in
  fst run = Returned tt ∧
  exit_status (fst run) = 0 ∧
  existsb isFatalLog (trace (snd run)) = false ∧
  List.skipn 20 (trace (snd run))
  = [ EvGit ["push"; "origin"; "pre-main"; "--force"] false;
      EvOpenAppend "/tmp/out" true;
      EvAppend "/tmp/out" (outputLine demoConfig) true ].
Proof. vm_compute. repeat split. Qed.

Lemma processPRs_skips_failures_witness :
  ∃ record,
    fst (processPRs (H := scripted [fetchArgs prFirst] TransportError)
                    (U := asciiOnly) [prFirst; prSecond] freshRun) = [record] ∧
    PR record = 11.
Proof.
  destruct (processPRs_skips_failures
              (H := scripted [fetchArgs prFirst] TransportError) (U := asciiOnly)
              [prFirst; prSecond] freshRun) as (_ & _ & _ & _ & _ & Hab).
  eapply (Hab prFirst prSecond); reflexivity.
Defined.

Lemma createMergeRecord_never_fails_witness :
  Commit (fst (createMergeRecord
                 (H := scripted [["rev-parse"; "HEAD"]] TransportError)
                 (U := asciiOnly) prFirst freshRun)) = "unknown" ∧
  Commit (fst (createMergeRecord (H := scripted [] TransportError)
                 (U := asciiOnly) prFirst freshRun)) ≠ "".
Proof.
  split.
  - pose proof (createMergeRecord_never_fails
                  (H := scripted [["rev-parse"; "HEAD"]] TransportError)
                  (U := asciiOnly) prFirst freshRun) as Hw.
    cbv zeta in Hw. destruct Hw as (_ & Hunknown & _). apply Hunknown. reflexivity.
  - pose proof (createMergeRecord_never_fails
                  (H := scripted [] TransportError)
                  (U := asciiOnly) prFirst freshRun) as Hw.
    cbv zeta in Hw. destruct Hw as (_ & _ & _ & Hfilled). apply Hfilled.
    intros _. vm_compute. discriminate.
Defined.

(** C3, the claim as stated fails: the squash of the first candidate fails
    and the next thing the pipeline runs is the fetch of the second.  On a
    work tree that a failed squash leaves dirty, the second candidate then
    fails too, although it succeeds when it is the only candidate. *)
Lemma failed_squash_not_neutralized :
  let run := processPRs (H := scripted [squashArgs prFirst] TransportError)
                        (U := asciiOnly) [prFirst; prSecond] freshRun in
  let onTree := processPRs (H := worktreeHost ["pr-10"]) (U := asciiOnly) in
  ¬ neutralized (trace (snd run)) ∧
  gitCommands (trace (snd run))
  = [ fetchArgs prFirst; squashArgs prFirst;
      fetchArgs prSecond; squashArgs prSecond; commitArgs prSecond;
      ["rev-parse"; "HEAD"] ] ∧
  fst (onTree [prFirst; prSecond] cleanTree) = [] ∧
  dirty (env (snd (onTree [prFirst; prSecond] cleanTree))) = true ∧
  map PR (fst (onTree [prSecond] cleanTree)) = [11].
Proof. vm_compute. repeat split. discriminate. Qed.

Lemma failed_squash_is_not_cleaned_witness :
  ∃ okFetch evs,
    trace (snd (processPRs (H := scripted [squashArgs prFirst] TransportError)
                           (U := asciiOnly) [prFirst; prSecond] freshRun))
    = [ EvGit (fetchArgs prFirst) true; EvGit (squashArgs prFirst) false;
        EvLog (LogPRFailed 10 (Wrap "squash merge failed"
                                    (GitFailed (squashArgs prFirst) "")));
        EvGit (fetchArgs prSecond) okFetch ] ++ evs.
Proof.
  destruct (failed_squash_is_not_cleaned
              (H := scripted [squashArgs prFirst] TransportError) (U := asciiOnly)
              [prFirst; prSecond] freshRun) as [_ Hnext].
  edestruct (Hnext prFirst prSecond []) as (_ & _ & Htrace);
    [reflexivity|reflexivity|exact Htrace].
Defined.

(** C5, the claim as stated fails: given the later pull request first, the
    pipeline integrates it first; the order is not the order by creation
    time. *)
Lemma integration_order_not_sorted :
  let prs := [prSecond; prFirst] in
  let run := processPRs (H := scripted [] TransportError) (U := asciiOnly)
                        prs freshRun in
  sortByCreated prs = [prFirst; prSecond] ∧
  fetched (trace (snd run)) = map fetchArgs [prSecond; prFirst] ∧
  fetched (trace (snd run)) ≠ map fetchArgs (sortByCreated prs) ∧
  map PR (fst run) = [11; 10] ∧
  filterPRs (U := asciiOnly) prs [] = prs.
Proof. vm_compute. repeat split. discriminate. Qed.

Lemma integration_order_is_input_order_witness :
  StronglySorted createdBefore [prFirst; prSecond] ∧
  StronglySorted createdBefore (filterPRs (U := asciiOnly) [prFirst; prSecond] ["bug"]) ∧
  fetched (trace (snd (processPRs (H := scripted [] TransportError) (U := asciiOnly)
                         (filterPRs (U := asciiOnly) [prFirst; prSecond] ["bug"])
                         freshRun)))
  = map fetchArgs (filterPRs (U := asciiOnly) [prFirst; prSecond] ["bug"]).
Proof.
  assert (Hsorted : StronglySorted createdBefore [prFirst; prSecond]).
  { repeat constructor. }
  split; [exact Hsorted|].
  destruct (integration_order_is_input_order
              (H := scripted [] TransportError) (U := asciiOnly)
              [prFirst; prSecond] ["bug"] freshRun) as (_ & _ & Hgiven).
  exact (Hgiven Hsorted).
Defined.

(** C6, the claim as stated fails: the run gets through the preamble and
    the integration loop, both candidates are integrated, the commit of the
    history file fails, and the run ends with status 1 without a call to
    the output sink. *)
Lemma output_missing_after_pipeline :
  let host := scripted [historyCommitArgs] (Response 200 "[]") in
  let run := main (H := host) (U := asciiOnly) (E := toyEncoding)
                  (Parsed demoFlags) freshRun in
  fst (preamble (H := host) (U := asciiOnly) (E := toyEncoding)
                (Parsed demoFlags) freshRun)
  = Returned (demoConfig, [prFirst; prSecond]) ∧
  fetched (trace (snd run)) = map fetchArgs [prFirst; prSecond] ∧
  fst run = Exited 1 ∧
  existsb isOutputCall (trace (snd run)) = false ∧
  existsb isOutputWritten (trace (snd run)) = false.
Proof. vm_compute. repeat split. Qed.

Lemma output_written_when_main_returns_witness :
  ∃ evs,
    trace (snd (main (H := scripted [] (Response 200 "[]")) (U := asciiOnly)
                     (E := toyEncoding) (Parsed demoFlags) freshRun)) = evs ∧
    ∃ before okOpen okWrite,
      evs = before ++ outputEvents demoConfig okOpen okWrite ∧
      forallb notOutput before = true.
Proof.
  destruct (output_written_when_main_returns
              (H := scripted [] (Response 200 "[]")) (U := asciiOnly)
              (E := toyEncoding) (Parsed demoFlags) freshRun) as (evs & Htr & Hcases).
  exists evs. split; [exact Htr|]. vm_compute in Hcases.
  destruct Hcases as (before & okOpen & okWrite & _ & Hevs & Hquiet).
  exists before, okOpen, okWrite. split; [exact Hevs|exact Hquiet].
Defined.



(** * Further properties of the program *)

(** ** Labels *)

Section MoreLabelFacts.
Context `{U : Unicode}.

(** X14: qualification only grows with the labels.  With a non-empty
    required list, a candidate that qualifies still qualifies when labels
    are added to it or to the required list, in any order and with any
    repetition; and the filter for a larger required list keeps everything
    the filter for the smaller one keeps. *)
Theorem hasAnyLabel_monotone (prLabels prLabels' required required' : list string)
  (prs : list GitHubPR) :
  required ≠ [] →
  prLabels ⊆ prLabels' →
  required ⊆ required' →
  (hasAnyLabel prLabels required = true → hasAnyLabel prLabels' required' = true) ∧
  sublist (filterPRs prs required) (filterPRs prs required').
Proof.
  intros Hne Hlabels Hreq.
  assert (Hmono : ∀ l l', l ⊆ l' →
            hasAnyLabel l required = true → hasAnyLabel l' required' = true).
  { intros l l' Hl. rewrite !hasAnyLabel_true.
    intros [?|(x & r & ? & ? & ?)]; [done|]. right. exists x, r. auto. }
  split; [by apply Hmono|].
  rewrite !filterPRs_filter.
  rewrite <- (list_filter_filter_l (qualifies required) (qualifies required')).
  - apply sublist_filter.
  - intros pr. rewrite <- !hasAnyLabel_qualifies. by apply Hmono.
Qed.

(** X15: the label filter works candidate by candidate: filtering a
    concatenation is concatenating the filtered parts, filtering twice is
    filtering once, and the result is never longer than the input. *)
Theorem filterPRs_app_idempotent (prs1 prs2 : list GitHubPR) (required : list string) :
  filterPRs (prs1 ++ prs2) required
    = filterPRs prs1 required ++ filterPRs prs2 required ∧
  filterPRs (filterPRs prs1 required) required = filterPRs prs1 required ∧
  (List.length (filterPRs prs1 required) ≤ List.length prs1)%nat.
Proof.
  rewrite !filterPRs_filter. split; [apply filter_app|]. split.
  - by apply list_filter_filter_l.
  - apply length_filter.
Qed.

End MoreLabelFacts.

Lemma SplitByte_one_piece (sep : ascii) (piece : string) :
  sep ∉ bytes_of_string piece → SplitByte sep piece = [piece].
Proof.
  induction piece as [|c piece IH]; simpl; [done|]. intros Hnot.
  apply not_elem_of_cons in Hnot as [Hc Hrest].
  destruct (Ascii.eqb_spec c sep) as [->|_]; [done|]. by rewrite IH.
Qed.

Lemma SplitByte_first_piece (sep : ascii) (piece rest : string) :
  sep ∉ bytes_of_string piece →
  SplitByte sep (piece +:+ String sep rest) = piece :: SplitByte sep rest.
Proof.
  induction piece as [|c piece IH]; simpl; intros Hnot.
  - by rewrite Ascii.eqb_refl.
  - apply not_elem_of_cons in Hnot as [Hc Hrest].
    destruct (Ascii.eqb_spec c sep) as [->|_]; [done|]. by rewrite IH.
Qed.

Lemma SplitByte_of_join (sep : ascii) (pieces : list string) :
  pieces ≠ [] →
  Forall (fun piece => sep ∉ bytes_of_string piece) pieces →
  SplitByte sep (String.concat (String sep EmptyString) pieces) = pieces.
Proof.
  induction pieces as [|piece [|next pieces] IH]; intros Hne Hall; [done| |].
  - simpl. apply SplitByte_one_piece. by apply Forall_cons in Hall as [? _].
  - apply Forall_cons in Hall as [Hpiece Hrest].
    change (String.concat (String sep EmptyString) (piece :: next :: pieces))
      with (piece +:+ String sep (String.concat (String sep EmptyString) (next :: pieces))).
    rewrite SplitByte_first_piece by done. by rewrite IH.
Qed.

(** X16: parsing the comma-joined text of a list of labels gives the list
    back, when the list is not empty, is not the single empty label, and no
    label holds a comma. *)
Theorem parseLabels_of_join (labels : list string) :
  labels ≠ [] →
  labels ≠ [""] →
  Forall (fun label => ("," : ascii) ∉ bytes_of_string label) labels →
  parseLabels (String.concat "," labels) = labels.
Proof.
  intros Hne Hone Hall. unfold parseLabels.
  destruct (String.eqb_spec (String.concat "," labels) "") as [Hempty|_].
  - destruct labels as [|label [|next labels]]; [done|simpl in Hempty; congruence|].
    exfalso. change (String.concat "," (label :: next :: labels))
      with (label +:+ String "," (String.concat "," (next :: labels))) in Hempty.
    by destruct label.
  - by apply SplitByte_of_join.
Qed.

Lemma parseLabels_of_join_witness :
  parseLabels (String.concat "," ["next-feature"; " Bug"; ""])
  = ["next-feature"; " Bug"; ""].
Proof.
  apply parseLabels_of_join; [done|done|].
  repeat constructor; vm_compute; intros Hin;
    repeat (apply elem_of_cons in Hin as [Heq|Hin]; [discriminate Heq|]);
    by apply elem_of_nil in Hin.
Defined.

Lemma hasAnyLabel_monotone_witness :
  hasAnyLabel (U := asciiOnly) ["Bug"; "next-feature"] ["urgent"; "BUG"] = true.
Proof.
  refine (proj1 (hasAnyLabel_monotone (U := asciiOnly)
                   ["Bug"] ["Bug"; "next-feature"] ["BUG"] ["urgent"; "BUG"] [] _ _ _) _).
  - done.
  - intros x ->%list_elem_of_singleton. constructor.
  - intros x ->%list_elem_of_singleton. repeat constructor.
  - reflexivity.
Defined.

Lemma string_length_app (a b : string) :
  String.length (a +:+ b) = (String.length a + String.length b)%nat.
Proof. induction a as [|c a IH]; simpl; [done|]. by rewrite IH. Qed.

Lemma string_app_same_length (a b x y : string) :
  String.length a = String.length b → a +:+ x = b +:+ y → a = b.
Proof.
  revert b. induction a as [|c a IH]; intros [|d b]; simpl; try done.
  intros [= Hlen] [= -> Heq]. f_equal. by apply IH.
Qed.

(** X18: the scratch branch and the fetch command of a candidate determine
    its number: two candidates with different numbers never share a scratch
    branch or a fetch. *)
Theorem prBranch_injective (pr1 pr2 : GitHubPR) :
  (prBranch pr1 = prBranch pr2 → Number pr1 = Number pr2) ∧
  (fetchArgs pr1 = fetchArgs pr2 → Number pr1 = Number pr2) ∧
  (squashArgs pr1 = squashArgs pr2 → Number pr1 = Number pr2).
Proof.
  assert (Hbranch : prBranch pr1 = prBranch pr2 → Number pr1 = Number pr2).
  { unfold prBranch, itoa. intros Heq. apply String.app_inj in Heq.
    by apply (inj pretty) in Heq. }
  split; [exact Hbranch|]. split.
  - unfold fetchArgs, prBranch, itoa. intros [= Heq]. apply String.app_inj in Heq.
    apply (inj pretty). revert Heq.
    generalize (pretty (Number pr1)) (pretty (Number pr2)). intros a b Heq.
    eapply string_app_same_length; [|exact Heq].
    apply (f_equal String.length) in Heq.
    rewrite !string_length_app in Heq. simpl in Heq.
    rewrite ?string_length_app in Heq. simpl in Heq. lia.
  - unfold squashArgs. intros Heq. apply Hbranch. congruence.
Qed.

(** ** The commit identifier *)

Lemma bytes_of_string_app (a b : string) :
  bytes_of_string (a +:+ b) = bytes_of_string a ++ bytes_of_string b.
Proof. induction a as [|c a IH]; simpl; [done|]. by rewrite IH. Qed.

Lemma string_of_bytes_of_string (s : string) :
  string_of_bytes (bytes_of_string s) = s.
Proof. induction s as [|c s IH]; simpl; [done|]. by rewrite IH. Qed.

Lemma forallb_reverse {A} (f : A → bool) (l : list A) :
  forallb f (rev l) = forallb f l.
Proof.
  induction l as [|x l IH]; simpl; [done|].
  rewrite forallb_app, IH. simpl. by rewrite andb_true_r, andb_comm.
Qed.

Section TrimFacts.
Context `{U : Unicode}.

Lemma trimStop_blanks (blanks rest : list ascii) :
  forallb blankByte blanks = true → trimStop (blanks ++ rest) = trimStop rest.
Proof.
  induction blanks as [|c blanks IH]; simpl; [done|].
  intros [Hc Hrest]%andb_prop. unfold blankByte in Hc.
  apply andb_prop in Hc as [Hascii Hblank].
  apply negb_true_iff in Hascii. rewrite Hascii, Hblank. by apply IH.
Qed.

Lemma trimStop_solid (c : ascii) (rest : list ascii) :
  solidByte c = true → trimStop (c :: rest) = string_of_bytes (rev (c :: rest)).
Proof.
  unfold solidByte. intros [Hascii Hsolid]%andb_prop.
  apply negb_true_iff in Hascii, Hsolid. simpl. by rewrite Hascii, Hsolid.
Qed.

Lemma TrimSpace_blank (s : string) :
  forallb blankByte (bytes_of_string s) = true → TrimSpace s = "".
Proof.
  induction s as [|c s IH]; simpl; [done|].
  intros [Hc Hrest]%andb_prop. unfold blankByte in Hc.
  apply andb_prop in Hc as [Hascii Hblank].
  apply negb_true_iff in Hascii. rewrite Hascii, Hblank. by apply IH.
Qed.

Lemma TrimSpace_blank_prefix (blanks s : string) :
  forallb blankByte (bytes_of_string blanks) = true →
  TrimSpace (blanks +:+ s) = TrimSpace s.
Proof.
  induction blanks as [|c blanks IH]; simpl; [done|].
  intros [Hc Hrest]%andb_prop. unfold blankByte in Hc.
  apply andb_prop in Hc as [Hascii Hblank].
  apply negb_true_iff in Hascii. rewrite Hascii, Hblank. by apply IH.
Qed.

Lemma TrimSpace_solid_head (c : ascii) (s : string) :
  solidByte c = true →
  TrimSpace (String c s) = trimStop (rev (bytes_of_string (String c s))).
Proof.
  unfold solidByte. intros [Hascii Hsolid]%andb_prop.
  apply negb_true_iff in Hascii, Hsolid.
  change (TrimSpace (String c s))
    with (if is_rune_start c then unicode_TrimSpace (String c s)
          else if asciiSpace c then TrimSpace s
               else trimStop (rev (bytes_of_string (String c s)))).
  by rewrite Hascii, Hsolid.
Qed.

(** [strings.TrimSpace] on its ASCII path: blank bytes around a text whose
    first and last byte are solid are removed, and nothing else. *)
Lemma TrimSpace_core (before core after : string) :
  forallb blankByte (bytes_of_string before) = true →
  forallb blankByte (bytes_of_string after) = true →
  (∀ c, head (bytes_of_string core) = Some c → solidByte c = true) →
  (∀ c, last (bytes_of_string core) = Some c → solidByte c = true) →
  TrimSpace (before +:+ core +:+ after) = core.
Proof.
  intros Hbefore Hafter Hhead Hlast. rewrite TrimSpace_blank_prefix by done.
  destruct core as [|c core]; [by apply TrimSpace_blank|].
  change (String c core +:+ after) with (String c (core +:+ after)).
  rewrite TrimSpace_solid_head by (by apply Hhead).
  change (String c (core +:+ after)) with (String c core +:+ after).
  rewrite bytes_of_string_app, rev_app_distr.
  rewrite trimStop_blanks by (by rewrite forallb_reverse).
  destruct (rev (bytes_of_string (String c core))) as [|d rest] eqn:Hrev.
  - apply (f_equal (@List.length ascii)) in Hrev. rewrite length_rev in Hrev.
    simpl in Hrev. done.
  - rewrite trimStop_solid.
    + rewrite <- Hrev, rev_involutive. apply string_of_bytes_of_string.
    + apply Hlast. rewrite <- (rev_involutive (bytes_of_string (String c core))).
      rewrite Hrev. simpl. by rewrite last_snoc.
Qed.

End TrimFacts.

Section CommitFacts.
Context {Env : Type} `{H : Host Env} `{U : Unicode}.

(** X17: when [git rev-parse HEAD] succeeds and prints an identifier with
    blank bytes (such as the final newline) around it, the commit field of
    the record is the identifier itself. *)
Theorem getLatestCommitSHA_trims (pr : GitHubPR) (s : World Env)
  (before id after : string) :
  let r := fst (exec_git ["rev-parse"; "HEAD"] (env s)) in
  exit_ok r = true →
  stdout r = before +:+ id +:+ after →
  forallb blankByte (bytes_of_string before) = true →
  forallb blankByte (bytes_of_string after) = true →
  (∀ c, head (bytes_of_string id) = Some c → solidByte c = true) →
  (∀ c, last (bytes_of_string id) = Some c → solidByte c = true) →
  fst (getLatestCommitSHA s) = id ∧
  Commit (fst (createMergeRecord pr s)) = id.
Proof.
  intros r Hok Hout Hbefore Hafter Hhead Hlast.
  assert (Hsha : fst (getLatestCommitSHA s) = id).
  { unfold getLatestCommitSHA, bind, ret, call_git. subst r.
    destruct (exec_git ["rev-parse"; "HEAD"] (env s)) as [res e]. simpl in *.
    rewrite Hok, Hout. by apply TrimSpace_core. }
  split; [done|]. rewrite createMergeRecord_run. simpl. subst r.
  rewrite Hok, Hout. by apply TrimSpace_core.
Qed.

(** X6: integrating a list in two parts, the second from the state the
    first left, gives the same records and the same final state as
    integrating it in one go. *)
Theorem processPRs_app (prs1 prs2 : list GitHubPR) (s : World Env) :
  processPRs (prs1 ++ prs2) s =
  (fst (processPRs prs1 s) ++ fst (processPRs prs2 (snd (processPRs prs1 s))),
   snd (processPRs prs2 (snd (processPRs prs1 s)))).
Proof.
  revert s. induction prs1 as [|pr prs1 IH]; intros s.
  - simpl. by destruct (processPRs prs2 s).
  - simpl. rewrite !processPRs_cons.
    destruct (processSinglePR pr s) as [[e|] s1].
    + apply IH.
    + destruct (createMergeRecord pr s1) as [record s2]. simpl. by rewrite IH.
Qed.

(** X7: the numbers of the records are a subsequence of the numbers of the
    candidates: no record for a pull request that was not a candidate, none
    out of order, never more records than candidates; and there is no
    record exactly when every candidate failed. *)
Theorem processPRs_records_sublist (prs : list GitHubPR) (s : World Env) :
  sublist (map PR (fst (processPRs prs s))) (map Number prs) ∧
  (List.length (fst (processPRs prs s)) ≤ List.length prs)%nat ∧
  (fst (processPRs prs s) = [] ↔
   Forall (fun verdict => snd verdict = None) (verdicts prs s)).
Proof.
  assert (Hsub : sublist (map PR (fst (processPRs prs s))) (map Number prs)).
  { revert s. induction prs as [|pr prs IH]; intros s; [constructor|].
    rewrite processPRs_cons. destruct (processSinglePR pr s) as [[e|] s1].
    - simpl. apply sublist_cons, IH.
    - rewrite createMergeRecord_run. simpl. apply sublist_skip, IH. }
  split; [done|]. split.
  - apply sublist_length in Hsub. by rewrite !length_map in Hsub.
  - rewrite processPRs_verdicts. generalize (verdicts prs s).
    induction l as [|[pr [record|]] l IH]; simpl.
    + done.
    + split; [done|]. intros [Hnone _]%Forall_cons. done.
    + rewrite IH. split; [by constructor|]. by intros [_ ?]%Forall_cons.
Qed.

Lemma failuresLogged_app (tr1 tr2 : list Event) :
  failuresLogged (tr1 ++ tr2) = failuresLogged tr1 ++ failuresLogged tr2.
Proof. apply omap_app. Qed.

Lemma failuresLogged_attempt (pr : GitHubPR) (okF okS okC : bool) :
  failuresLogged (attemptEvents pr okF okS okC) = [].
Proof. by destruct okF, okS. Qed.

(** X8: every candidate ends either in a record or in one log line naming
    it, never both and never neither: the failures logged are the numbers
    of the failed candidates in order, and records and failure lines
    together are as many as the candidates. *)
Theorem processPRs_failures_logged (prs : list GitHubPR) (s : World Env) :
  ∃ evs, trace (snd (processPRs prs s)) = trace s ++ evs ∧
    failuresLogged evs =
      omap (fun verdict => match snd verdict with
                           | None => Some (Number (fst verdict))
                           | Some _ => None
                           end) (verdicts prs s) ∧
    (List.length (fst (processPRs prs s)) + List.length (failuresLogged evs)
     = List.length prs)%nat.
Proof.
  revert s. induction prs as [|pr prs IH]; intros s.
  - exists []. by rewrite app_nil_r.
  - rewrite processPRs_cons. cbn [verdicts].
    destruct (processSinglePR_trace pr s) as (okF & okS & okC & Htr & _).
    destruct (processSinglePR pr s) as [[e|] s1]; simpl in Htr.
    + destruct (IH (snd (log_Printf (LogPRFailed (Number pr) e) s1)))
        as (evs & Hevs & Hlog & Hcount).
      exists (attemptEvents pr okF okS okC ++ [EvLog (LogPRFailed (Number pr) e)] ++ evs).
      split; [|split].
      * rewrite Hevs. simpl. by rewrite Htr, <- !app_assoc.
      * rewrite !failuresLogged_app, failuresLogged_attempt. simpl.
        by rewrite Hlog.
      * rewrite !failuresLogged_app, failuresLogged_attempt. simpl in *. lia.
    + rewrite createMergeRecord_run. simpl.
      match goal with |- context [processPRs prs ?s2] =>
        destruct (IH s2) as (evs & Hevs & Hlog & Hcount) end.
      exists (attemptEvents pr okF okS okC
                ++ [EvGit ["rev-parse"; "HEAD"]
                      (exit_ok (fst (exec_git ["rev-parse"; "HEAD"] (env s1))))]
                ++ evs).
      split; [|split].
      * rewrite Hevs. simpl. by rewrite Htr, <- !app_assoc.
      * rewrite !failuresLogged_app, failuresLogged_attempt. simpl.
        by rewrite Hlog.
      * rewrite !failuresLogged_app, failuresLogged_attempt. simpl in *. lia.
Qed.

End CommitFacts.

Lemma getLatestCommitSHA_trims_witness :
  Commit (fst (createMergeRecord (H := scripted [] TransportError)
                 (U := asciiOnly) prFirst freshRun)) = "4f2a9c1".
Proof.
  refine (proj2 (getLatestCommitSHA_trims (H := scripted [] TransportError)
                   (U := asciiOnly) prFirst freshRun "" "4f2a9c1" newline
                   _ _ _ _ _ _)).
  - reflexivity.
  - reflexivity.
  - reflexivity.
  - reflexivity.
  - intros c [= <-]. reflexivity.
  - intros c [= <-]. reflexivity.
Defined.

(** ** Configuration *)

Section ConfigFacts.
Context {Env : Type} `{H : Host Env} `{U : Unicode} `{E : Encoding}.

Lemma mustParseConfig_cases (fl : Flags) (s : World Env) :
  let given := default "" in
  if String.eqb (given (flag_github_token fl)) ""
     || String.eqb (given (flag_owner fl)) ""
     || String.eqb (given (flag_repo fl)) ""
     || String.eqb (given (flag_github_output fl)) ""
  then ∃ err, mustParseConfig (Parsed fl) s
              = (Exited 1, mkWorld (env s)
                             (trace s ++ [EvLog (LogFatal "invalid configuration:" err)]))
  else mustParseConfig (Parsed fl) s
       = (Returned
            {| GithubToken := given (flag_github_token fl);
               Owner := given (flag_owner fl);
               Repo := given (flag_repo fl);
               TrunkBranch := default "main" (flag_trunk_branch fl);
               TargetBranch :=
                 if String.eqb (given (flag_target_branch fl)) ""
                 then "pre-" +:+ default "main" (flag_trunk_branch fl)
                 else given (flag_target_branch fl);
               RequiredLabels := parseLabels (given (flag_labels fl));
               GitHubOutput := given (flag_github_output fl) |}, s).
Proof.
  intros given. unfold mustParseConfig, parseConfig, bindP, flag_Parse, retP.
  cbn [GithubToken Owner Repo GitHubOutput TargetBranch TrunkBranch fst snd].
  fold given.
  destruct (String.eqb (given (flag_github_token fl)) ""); simpl; [by eexists|].
  destruct (String.eqb (given (flag_owner fl)) ""); simpl; [by eexists|].
  destruct (String.eqb (given (flag_repo fl)) ""); simpl; [by eexists|].
  destruct (String.eqb (given (flag_github_output fl)) ""); simpl; [by eexists|].
  done.
Qed.


(** X2: a configuration that was accepted has a token, an owner, a
    repository, an output path and a target branch that are not empty; the
    target branch is the one given, or [pre-] followed by the trunk branch
    when none was given; the trunk branch defaults to [main]; the required
    labels are empty exactly when no label text was given; and accepting a
    configuration touches nothing. *)
Theorem mustParseConfig_accepts (fl : Flags) (s s' : World Env) (cfg : Config) :
  mustParseConfig (Parsed fl) s = (Returned cfg, s') →
  s' = s ∧
  GithubToken cfg ≠ "" ∧ Owner cfg ≠ "" ∧ Repo cfg ≠ "" ∧ GitHubOutput cfg ≠ "" ∧
  TargetBranch cfg ≠ "" ∧
  TrunkBranch cfg = default "main" (flag_trunk_branch fl) ∧
  TargetBranch cfg = (if String.eqb (default "" (flag_target_branch fl)) ""
                      then "pre-" +:+ TrunkBranch cfg
                      else default "" (flag_target_branch fl)) ∧
  (RequiredLabels cfg = [] ↔ default "" (flag_labels fl) = "").
Proof.
  intros Hparse. pose proof (mustParseConfig_cases fl s) as Hcases.
  cbv zeta in Hcases. rewrite Hparse in Hcases.
  destruct (_ || _) eqn:Htest in Hcases; [by destruct Hcases|].
  injection Hcases as -> ->.
  apply orb_false_elim in Htest as [Htest Hout].
  apply orb_false_elim in Htest as [Htest Hrepo].
  apply orb_false_elim in Htest as [Htoken Howner].
  apply String.eqb_neq in Htoken, Howner, Hrepo, Hout. simpl.
  repeat split; try done.
  - by destruct (String.eqb_spec (default "" (flag_target_branch fl)) "").
  - unfold parseLabels.
    destruct (String.eqb_spec (default "" (flag_labels fl)) ""); [done|].
    intros Hsplit. by apply SplitByte_not_nil in Hsplit.
  - intros ->. done.
Qed.

End ConfigFacts.


Lemma mustParseConfig_accepts_witness :
  TargetBranch demoConfig ≠ "" ∧
  TargetBranch demoConfig = "pre-" +:+ TrunkBranch demoConfig ∧
  (RequiredLabels demoConfig = [] ↔ default "" (flag_labels demoFlags) = "").
Proof.
  destruct (mustParseConfig_accepts (Env := Z) demoFlags freshRun freshRun demoConfig)
    as (_ & _ & _ & _ & _ & Htarget & _ & Hdefault & Hlabels); [reflexivity|].
  split; [exact Htarget|]. split; [exact Hdefault|exact Hlabels].
Defined.

(** ** Global setup, the query and the reset of the target branch *)

Section SetupFacts.
Context {Env : Type} `{H : Host Env} `{U : Unicode} `{E : Encoding}.

Lemma setupGitConfig_range_cons (entry : string * string)
  (entries : list (string * string)) (s : World Env) :
  setupGitConfig_range (entry :: entries) s =
  match runGitCommand (configCommand entry) s with
  | (Some e, s1) => (Some (Wrap "git config error" e), s1)
  | (None, s1) => setupGitConfig_range entries s1
  end.
Proof.
  destruct entry as [key value]. simpl. unfold bind.
  change ["config"; "--global"; key; value] with (configCommand (key, value)).
  by destruct (runGitCommand (configCommand (key, value)) s) as [[e|] s1].
Qed.

Lemma setupGitConfig_range_events (entries : list (string * string)) (s : World Env) :
  match fst (setupGitConfig_range entries s) with
  | None =>
      trace (snd (setupGitConfig_range entries s))
      = trace s ++ map (fun entry => EvGit (configCommand entry) true) entries
  | Some err =>
      ∃ before failed after output,
        entries = before ++ failed :: after ∧
        trace (snd (setupGitConfig_range entries s))
        = trace s ++ map (fun entry => EvGit (configCommand entry) true) before
                  ++ [EvGit (configCommand failed) false] ∧
        err = Wrap "git config error" (GitFailed (configCommand failed) output)
  end.
Proof.
  revert s. induction entries as [|entry entries IH]; intros s.
  - simpl. by rewrite app_nil_r.
  - rewrite setupGitConfig_range_cons, runGitCommand_run. simpl.
    destruct (exec_git (configCommand entry) (env s)) as [[[] out comb] e1]; simpl.
    + match goal with |- context [setupGitConfig_range entries ?s1] =>
        specialize (IH s1); destruct (setupGitConfig_range entries s1) as [[err|] s2]
      end; simpl in *.
      * destruct IH as (before & failed & after & output & -> & Htr & ->).
        exists (entry :: before), failed, after, output.
        split; [done|]. split; [|done]. rewrite Htr. simpl.
        by rewrite <- !app_assoc.
      * rewrite IH. by rewrite <- app_assoc.
    + by exists [], entry, entries, comb.
Qed.

(** X3: the global git setup runs each of the four configuration commands
    at most once, in an order that is not fixed.  When it succeeds all four
    were run and succeeded; when it fails it stopped at the first command
    that failed, which is the one named in the error. *)
Theorem setupGitConfig_each_once (s : World Env) :
  match fst (setupGitConfig s) with
  | None =>
      ∃ order, order ≡ₚ configs ∧
        trace (snd (setupGitConfig s))
        = trace s ++ map (fun entry => EvGit (configCommand entry) true) order
  | Some err =>
      ∃ before failed output,
        before ++ [failed] ⊆+ configs ∧
        trace (snd (setupGitConfig s))
        = trace s ++ map (fun entry => EvGit (configCommand entry) true) before
                  ++ [EvGit (configCommand failed) false] ∧
        err = Wrap "git config error" (GitFailed (configCommand failed) output)
  end.
Proof.
  unfold setupGitConfig, bind, call_seed.
  destruct (map_seed (env s)) as [seed e0].
  pose proof (shuffle_Permutation seed configs) as Hperm.
  revert Hperm. generalize (shuffle seed configs). intros order Hperm.
  pose proof (setupGitConfig_range_events order (mkWorld e0 (trace s))) as Hrange.
  destruct (setupGitConfig_range order (mkWorld e0 (trace s))) as [[err|] s1];
    cbn [fst snd trace] in *.
  - destruct Hrange as (before & failed & after & output & Hsplit & Htr & ->).
    exists before, failed, output. split; [|done].
    rewrite <- Hperm, Hsplit.
    change (failed :: after) with ([failed] ++ after). rewrite app_assoc.
    by apply submseteq_inserts_r.
  - by exists order.
Qed.


Lemma prepareTargetBranch_events (cfg : Config) (s : World Env) :
  ∃ okTrunk found okDelete okCreate,
    match prepareTargetBranch cfg s with
    | (Returned _, s') =>
        resetDone okTrunk found okDelete okCreate = true ∧
        trace s' = trace s ++ resetEvents cfg okTrunk found okDelete okCreate
    | (Exited code, s') =>
        code = 1 ∧
        resetDone okTrunk found okDelete okCreate = false ∧
        ∃ what err,
          trace s' = trace s ++ resetEvents cfg okTrunk found okDelete okCreate
                             ++ [EvLog (LogFatal what err)]
    end.
Proof.
  unfold prepareTargetBranch, branchExists, bindP, lift, bind, ret, retP, log_Fatal.
  rewrite runGitCommand_run. simpl.
  destruct (exec_git ["checkout"; TrunkBranch cfg] (env s)) as [[[] ? ?] e1]; simpl.
  2:{ exists false, false, false, false. split; [done|]. split; [done|].
      eexists _, _. by rewrite <- app_assoc. }
  rewrite runGitCommand_run. simpl.
  destruct (exec_git ["show-ref"; "--verify"; "refs/heads/" +:+ TargetBranch cfg] e1)
    as [[[] ? ?] e2]; simpl.
  - rewrite runGitCommand_run. simpl.
    destruct (exec_git ["branch"; "-D"; TargetBranch cfg] e2) as [[[] ? ?] e3]; simpl.
    + rewrite runGitCommand_run. simpl.
      destruct (exec_git ["checkout"; "-B"; TargetBranch cfg] e3) as [[[] ? ?] e4];
        simpl.
      * exists true, true, true, true. split; [done|]. by rewrite <- !app_assoc.
      * exists true, true, true, false. split; [done|]. split; [done|].
        eexists _, _. by rewrite <- !app_assoc.
    + exists true, true, false, false. split; [done|]. split; [done|].
      eexists _, _. by rewrite <- !app_assoc.
  - rewrite runGitCommand_run. simpl.
    destruct (exec_git ["checkout"; "-B"; TargetBranch cfg] e2) as [[[] ? ?] e3];
      simpl.
    + exists true, false, false, true. split; [done|]. by rewrite <- !app_assoc.
    + exists true, false, false, false. split; [done|]. split; [done|].
      eexists _, _. by rewrite <- !app_assoc.
Qed.

(** X5: the reset of the target branch checks out trunk, asks whether the
    target branch exists, deletes it only when it does, and creates it
    last.  A failed checkout, delete or create is fatal and nothing after
    it is run; a missing target branch is not a failure.  When the reset
    returns, its last command was the successful creation of the target
    branch. *)
Theorem prepareTargetBranch_steps (cfg : Config) (s : World Env) :
  ∃ okTrunk found okDelete okCreate,
    match prepareTargetBranch cfg s with
    | (Returned _, s') =>
        resetDone okTrunk found okDelete okCreate = true ∧
        trace s' = trace s ++ resetEvents cfg okTrunk found okDelete okCreate ∧
        last (trace s') = Some (EvGit ["checkout"; "-B"; TargetBranch cfg] true)
    | (Exited code, s') =>
        code = 1 ∧
        resetDone okTrunk found okDelete okCreate = false ∧
        ∃ what err,
          trace s' = trace s ++ resetEvents cfg okTrunk found okDelete okCreate
                             ++ [EvLog (LogFatal what err)]
    end.
Proof.
  destruct (prepareTargetBranch_events cfg s)
    as (okTrunk & found & okDelete & okCreate & Hcases).
  exists okTrunk, found, okDelete, okCreate.
  destruct (prepareTargetBranch cfg s) as [[[]|code] s']; [|done].
  destruct Hcases as [Hdone Htr]. split; [done|]. split; [done|].
  rewrite Htr. unfold resetDone in Hdone.
  apply andb_prop in Hdone as [[-> Hdel]%andb_prop ->].
  destruct found; simpl in *; [rewrite Hdel|];
    unfold resetEvents; by rewrite last_app_cons.
Qed.

(** X9: the history recorder stops at its first failure.  When the records
    cannot be encoded nothing outside is touched; the file is staged only
    after it was written and committed only after it was staged; the
    recorder reports success exactly when the write, the staging and the
    commit all succeeded. *)
Theorem updateRefHistory_stops_at_first_failure (merges : list MergeRecord)
  (s : World Env) :
  match json_MarshalIndent {| Merges := merges |} with
  | None => ∃ err, updateRefHistory merges s = (Some err, s)
  | Some data =>
      ∃ okWrite okAdd okCommit,
        trace (snd (updateRefHistory merges s))
        = trace s ++ recorderEvents data okWrite okAdd okCommit ∧
        (fst (updateRefHistory merges s) = None ↔
         okWrite = true ∧ okAdd = true ∧ okCommit = true)
  end.
Proof.
  pose proof (updateRefHistory_events merges s) as Hevents.
  destruct (json_MarshalIndent {| Merges := merges |}) as [data|] eqn:Hdata.
  - destruct Hevents as (okWrite & okAdd & okCommit & Htr & Hnil).
    exists okWrite, okAdd, okCommit. split; [done|].
    destruct (fst (updateRefHistory merges s)); simpl in Hnil.
    + split; [done|]. intros (-> & -> & ->). done.
    + split; [|done]. intros _. symmetry in Hnil.
      by apply andb_prop in Hnil as [[-> ->]%andb_prop ->].
  - unfold updateRefHistory. rewrite Hdata. by eexists.
Qed.

End SetupFacts.

(** ** What the stages emit, for any class of events *)

Section EmitsMore.
Context {Env : Type} `{H : Host Env} `{U : Unicode} `{E : Encoding}.
Variable Q : Event → bool.

Lemma onlyEmits_call_OpenAppend (path : string) :
  (∀ ok, Q (EvOpenAppend path ok) = true) → onlyEmits Q (call_OpenAppend path).
Proof.
  intros HQ s. unfold call_OpenAppend.
  destruct (os_OpenAppend path (env s)) as [ok e].
  eexists [_]. split; [done|]. simpl. by rewrite HQ.
Qed.

Lemma onlyEmits_call_Append (path data : string) :
  (∀ ok, Q (EvAppend path data ok) = true) → onlyEmits Q (call_Append path data).
Proof.
  intros HQ s. unfold call_Append.
  destruct (file_Append path data (env s)) as [ok e].
  eexists [_]. split; [done|]. simpl. by rewrite HQ.
Qed.

Lemma setupGitConfig_emits_any :
  (∀ entry ok, Q (EvGit (configCommand entry) ok) = true) →
  onlyEmits Q setupGitConfig.
Proof.
  intros HQ. unfold setupGitConfig.
  apply onlyEmits_bind; [apply onlyEmits_call_seed|]. intros seed.
  generalize (shuffle seed configs). intros entries.
  induction entries as [|[key value] entries IH]; simpl; [apply onlyEmits_ret|].
  apply onlyEmits_bind.
  - apply onlyEmits_runGitCommand. intros ok. apply (HQ (key, value)).
  - intros [e|]; [apply onlyEmits_ret|apply IH].
Qed.

Lemma processSinglePR_emits_any (pr : GitHubPR) :
  (∀ ok, Q (EvGit (fetchArgs pr) ok) = true) →
  (∀ ok, Q (EvGit (squashArgs pr) ok) = true) →
  (∀ ok, Q (EvGit (commitArgs pr) ok) = true) →
  onlyEmits Q (processSinglePR pr).
Proof.
  intros Hfetch Hsquash Hcommit. unfold processSinglePR.
  apply onlyEmits_bind; [by apply onlyEmits_runGitCommand|].
  intros [e|]; [apply onlyEmits_ret|].
  apply onlyEmits_bind; [by apply onlyEmits_runGitCommand|].
  intros [e|]; [apply onlyEmits_ret|].
  apply onlyEmits_bind; [by apply onlyEmits_runGitCommand|].
  intros [e|]; apply onlyEmits_ret.
Qed.

Lemma processPRs_emits_any (prs : list GitHubPR) :
  (∀ pr ok, Q (EvGit (fetchArgs pr) ok) = true) →
  (∀ pr ok, Q (EvGit (squashArgs pr) ok) = true) →
  (∀ pr ok, Q (EvGit (commitArgs pr) ok) = true) →
  (∀ ok, Q (EvGit ["rev-parse"; "HEAD"] ok) = true) →
  (∀ n e, Q (EvLog (LogPRFailed n e)) = true) →
  onlyEmits Q (processPRs prs).
Proof.
  intros Hfetch Hsquash Hcommit Hhead Hlog. unfold processPRs.
  generalize (@nil MergeRecord). induction prs as [|pr prs IH]; intros acc; simpl.
  - apply onlyEmits_ret.
  - apply onlyEmits_bind; [by apply processSinglePR_emits_any|]. intros [e|].
    + apply onlyEmits_bind; [by apply onlyEmits_log_Printf|]. intros _. apply IH.
    + apply onlyEmits_bind; [|intros r; apply IH].
      unfold createMergeRecord, getLatestCommitSHA.
      apply onlyEmits_bind.
      * apply onlyEmits_bind; [by apply onlyEmits_call_git|].
        intros r. apply onlyEmits_ret.
      * intros sha. apply onlyEmits_bind; [apply onlyEmits_call_Now|].
        intros now. apply onlyEmits_ret.
Qed.

End EmitsMore.

Ltac emits_more :=
  first
    [ emits_step
    | apply onlyEmits_call_OpenAppend; intros; reflexivity
    | apply onlyEmits_call_Append; intros; reflexivity ].

(** ** Fatal errors *)

Section FatalFacts.
Context {Env : Type} `{H : Host Env} `{U : Unicode} `{E : Encoding}.

Lemma fatal_retP {A} (a : A) : fatalDiscipline (retP (Env := Env) a).
Proof. intros s. exists []. by rewrite app_nil_r. Qed.

Lemma fatal_log_Fatal {A} (what : string) (err : error) :
  fatalDiscipline (log_Fatal (Env := Env) (A := A) what err).
Proof. intros s. simpl. split; [done|]. by exists [], what, err. Qed.

Lemma fatal_lift {A} (m : IO Env A) :
  onlyEmits notFatalLog m → fatalDiscipline (lift m).
Proof.
  intros Hm s. unfold lift. destruct (Hm s) as (evs & Htr & Hq).
  destruct (m s) as [a s1]. by exists evs.
Qed.

Lemma fatal_bindP {A B} (m : Proc Env A) (k : A → Proc Env B) :
  fatalDiscipline m → (∀ a, fatalDiscipline (k a)) → fatalDiscipline (bindP m k).
Proof.
  intros Hm Hk s. unfold bindP. specialize (Hm s).
  destruct (m s) as [[a|code] s1]; [|done].
  destruct Hm as (evs1 & Htr1 & Hq1). specialize (Hk a s1).
  destruct (k a s1) as [[b|code] s2].
  - destruct Hk as (evs2 & Htr2 & Hq2). exists (evs1 ++ evs2).
    rewrite Htr2, Htr1, <- app_assoc. split; [done|].
    by rewrite forallb_app, Hq1, Hq2.
  - destruct Hk as (-> & evs2 & what & err & Htr2 & Hq2). split; [done|].
    exists (evs1 ++ evs2), what, err. rewrite Htr2, Htr1, <- !app_assoc.
    split; [done|]. by rewrite forallb_app, Hq1, Hq2.
Qed.

Lemma fatal_defer {A B} (f : IO Env B) (body : Proc Env A) :
  onlyEmits notFatalLog f → fatalDiscipline body → fatalDiscipline (defer f body).
Proof.
  intros Hf Hbody s. unfold defer. specialize (Hbody s).
  destruct (body s) as [[a|code] s1]; [|done].
  destruct Hbody as (evs1 & Htr1 & Hq1). destruct (Hf s1) as (evs2 & Htr2 & Hq2).
  destruct (f s1) as [b s2]. simpl in *. exists (evs1 ++ evs2).
  rewrite Htr2, Htr1, <- app_assoc. split; [done|].
  by rewrite forallb_app, Hq1, Hq2.
Qed.

Lemma setupGitConfig_not_fatal : onlyEmits notFatalLog setupGitConfig.
Proof. by apply setupGitConfig_emits_any. Qed.

Lemma fetchQualifiedPRs_not_fatal (cfg : Config) :
  onlyEmits notFatalLog (fetchQualifiedPRs cfg).
Proof. unfold fetchQualifiedPRs. repeat emits_more. Qed.

Lemma processPRs_not_fatal (prs : list GitHubPR) :
  onlyEmits notFatalLog (processPRs prs).
Proof. by apply processPRs_emits_any. Qed.

Lemma updateRefHistory_not_fatal (merges : list MergeRecord) :
  onlyEmits notFatalLog (updateRefHistory merges).
Proof. unfold updateRefHistory. repeat emits_more. Qed.

Lemma setOutput_not_fatal (cfg : Config) (name value : string) :
  onlyEmits notFatalLog (setOutput cfg name value).
Proof. unfold setOutput. repeat emits_more. Qed.

Lemma mustParseConfig_fatal (fl : Flags) :
  fatalDiscipline (Env := Env) (mustParseConfig (Parsed fl)).
Proof.
  intros s. pose proof (mustParseConfig_cases fl s) as Hcases. cbv zeta in Hcases.
  destruct (_ || _) in Hcases.
  - destruct Hcases as [err ->]. split; [done|]. by exists [], "invalid configuration:", err.
  - rewrite Hcases. exists []. by rewrite app_nil_r.
Qed.

Lemma prepareTargetBranch_fatal (cfg : Config) :
  fatalDiscipline (prepareTargetBranch cfg).
Proof.
  intros s. destruct (prepareTargetBranch_events cfg s)
    as (okTrunk & found & okDelete & okCreate & Hcases).
  assert (Hquiet : forallb notFatalLog
                     (resetEvents cfg okTrunk found okDelete okCreate) = true).
  { by destruct okTrunk, found, okDelete. }
  destruct (prepareTargetBranch cfg s) as [[[]|code] s'].
  - destruct Hcases as [_ Htr]. by eexists.
  - destruct Hcases as (-> & _ & what & err & Htr). split; [done|]. by eexists _, what, err.
Qed.

(** X10: a run whose command line parses ends in one of two ways.  Either
    [main] returns and no fatal line was logged, or the process exits with
    status 1 and exactly one fatal line was logged, as the last thing the
    run did. *)
Theorem main_fatal_logs_once (fl : Flags) (s : World Env) :
  match main (Parsed fl) s with
  | (Returned _, s') =>
      ∃ evs, trace s' = trace s ++ evs ∧ forallb notFatalLog evs = true
  | (Exited code, s') =>
      code = 1 ∧
      ∃ evs what err,
        trace s' = trace s ++ evs ++ [EvLog (LogFatal what err)] ∧
        forallb notFatalLog evs = true
  end.
Proof.
  revert s. change (fatalDiscipline (main (Parsed fl))). unfold main.
  apply fatal_bindP; [apply mustParseConfig_fatal|]. intros cfg.
  apply fatal_defer; [apply setOutput_not_fatal|].
  apply fatal_bindP.
  { unfold mustSetupGitConfig. apply fatal_bindP.
    - apply fatal_lift, setupGitConfig_not_fatal.
    - intros [e|]; [apply fatal_log_Fatal|apply fatal_retP]. }
  intros _. apply fatal_bindP.
  { unfold mustFetchQualifiedPRs. apply fatal_bindP.
    - apply fatal_lift, fetchQualifiedPRs_not_fatal.
    - intros [prs|e]; [apply fatal_retP|apply fatal_log_Fatal]. }
  intros prs. apply fatal_bindP; [apply prepareTargetBranch_fatal|].
  intros _. apply fatal_bindP; [apply fatal_lift, processPRs_not_fatal|].
  intros merged. apply fatal_bindP.
  { unfold updateMergeHistory. apply fatal_bindP.
    - apply fatal_lift, updateRefHistory_not_fatal.
    - intros [e|]; [apply fatal_log_Fatal|apply fatal_retP]. }
  intros _. apply fatal_bindP; [|intros; apply fatal_retP].
  apply fatal_lift. unfold pushChanges. emits_more.
Qed.

End FatalFacts.

(** ** Publishing *)

Section PublishFacts.
Context {Env : Type} `{H : Host Env} `{U : Unicode} `{E : Encoding}.

Lemma mustParseConfig_local (cl : CommandLine) (Q : Event → bool) :
  (∀ what err, Q (EvLog (LogFatal what err)) = true) →
  onlyEmits (Env := Env) Q (mustParseConfig cl).
Proof.
  intros HQ s. destruct cl as [code|fl].
  - exists []. by rewrite app_nil_r.
  - pose proof (mustParseConfig_cases fl s) as Hcases. cbv zeta in Hcases.
    destruct (_ || _) in Hcases.
    + destruct Hcases as [err ->]. eexists [_]. split; [done|]. simpl. by rewrite HQ.
    + rewrite Hcases. exists []. by rewrite app_nil_r.
Qed.

Lemma mustSetupGitConfig_setup : onlyEmits isSetupStep mustSetupGitConfig.
Proof.
  unfold mustSetupGitConfig. apply onlyEmits_bindP.
  - by apply onlyEmits_lift, setupGitConfig_emits_any.
  - intros [e|]; [by apply onlyEmits_log_Fatal|apply onlyEmits_retP].
Qed.

Lemma mustFetchQualifiedPRs_setup (cfg : Config) :
  onlyEmits isSetupStep (mustFetchQualifiedPRs cfg).
Proof. unfold mustFetchQualifiedPRs, fetchQualifiedPRs. repeat emits_more. Qed.

Lemma query_setup (cl : CommandLine) : onlyEmits isSetupStep (query cl).
Proof.
  unfold query.
  apply onlyEmits_bindP; [by apply mustParseConfig_local|intros cfg].
  apply onlyEmits_bindP; [apply mustSetupGitConfig_setup|intros _].
  apply onlyEmits_bindP; [apply mustFetchQualifiedPRs_setup|intros prs].
  apply onlyEmits_retP.
Qed.

Lemma isSetupStep_local (ev : Event) : isSetupStep ev = true → isLocalStep ev = true.
Proof.
  destruct ev as [[|cmd args] ok| | | | |]; simpl; try done.
  intros ->%String.eqb_eq. done.
Qed.

(** [preamble] is [query] followed by the reset of the target branch. *)
Lemma preamble_query (cl : CommandLine) (s : World Env) :
  preamble cl s =
  match query cl s with
  | (Returned (cfg, prs), s1) =>
      match prepareTargetBranch cfg s1 with
      | (Returned _, s2) => (Returned (cfg, prs), s2)
      | (Exited code, s2) => (Exited code, s2)
      end
  | (Exited code, s1) => (Exited code, s1)
  end.
Proof.
  unfold preamble, query, bindP, retP.
  destruct (mustParseConfig cl s) as [[cfg|code] s0]; [|done].
  destruct (mustSetupGitConfig s0) as [[[]|code] s0']; [|done].
  destruct (mustFetchQualifiedPRs cfg s0') as [[prs|code] s0'']; [|done].
  by destruct (prepareTargetBranch cfg s0'') as [[[]|code] s1].
Qed.

Lemma prepareTargetBranch_local (cfg : Config) :
  onlyEmits isLocalStep (prepareTargetBranch cfg).
Proof.
  intros s. destruct (prepareTargetBranch_events cfg s)
    as (okTrunk & found & okDelete & okCreate & Hcases).
  assert (Hlocal : forallb isLocalStep
                     (resetEvents cfg okTrunk found okDelete okCreate) = true).
  { by destruct okTrunk, found, okDelete. }
  destruct (prepareTargetBranch cfg s) as [[[]|code] s'].
  - destruct Hcases as [_ Htr]. by eexists.
  - destruct Hcases as (_ & _ & what & err & Htr). eexists. split; [exact Htr|].
    rewrite forallb_app, Hlocal. done.
Qed.

Lemma preamble_local (cl : CommandLine) : onlyEmits isLocalStep (preamble cl).
Proof.
  intros s. rewrite preamble_query.
  destruct (onlyEmits_weaken _ _ _ isSetupStep_local (query_setup cl) s)
    as (evs0 & Htr0 & Hq0).
  destruct (query cl s) as [[[cfg prs]|code] s1]; [|by exists evs0].
  cbn [fst snd] in Htr0.
  destruct (prepareTargetBranch_local cfg s1) as (evs1 & Htr1 & Hq1).
  destruct (prepareTargetBranch cfg s1) as [[[]|code] s2]; cbn [fst snd] in *;
    exists (evs0 ++ evs1); rewrite Htr1, Htr0, <- app_assoc;
    (split; [done|]); by rewrite forallb_app, Hq0, Hq1.
Qed.

Lemma processPRs_local (prs : list GitHubPR) : onlyEmits isLocalStep (processPRs prs).
Proof. by apply processPRs_emits_any. Qed.

Lemma recorderEvents_local (data : string) (okWrite okAdd okCommit : bool) :
  forallb isLocalStep (recorderEvents data okWrite okAdd okCommit) = true.
Proof. by destruct okWrite, okAdd. Qed.

(** X11: the force-push is run only after the history file was written,
    staged and committed with success, it is run once, and nothing but the
    report of the output follows it.  A run that ends with a fatal error
    has neither pushed nor called the output sink. *)
Theorem main_pushes_only_after_history (cl : CommandLine) (s : World Env) :
  ∃ evs, trace (snd (main cl s)) = trace s ++ evs ∧
    match fst (main cl s) with
    | Exited _ => forallb isLocalStep evs = true
    | Returned _ =>
        ∃ cfg data before okPush okOpen okWrite,
          evs = before ++ historyEvents data
                       ++ EvGit (pushArgs cfg) okPush
                       :: outputEvents cfg okOpen okWrite ∧
          forallb isLocalStep before = true
    end.
Proof.
  pose proof (main_before_output cl s) as Hmain. rewrite main_unfold in *.
  destruct (preamble_local cl s) as (evs0 & Htr0 & Hq0).
  destruct (preamble cl s) as [[[cfg prs]|code] s1]; simpl in *.
  2:{ exists evs0. by inversion Hmain. }
  destruct (processPRs_local prs s1) as (evs1 & Htr1 & Hq1).
  pose proof (updateRefHistory_events (fst (processPRs prs s1))
                (snd (processPRs prs s1))) as Hrec.
  destruct (processPRs prs s1) as [merged s2]; simpl in *.
  destruct (updateRefHistory merged s2) as [[e|] s3]; simpl in *.
  - destruct (json_MarshalIndent {| Merges := merged |}) as [data|].
    + destruct Hrec as (okW & okA & okC & Htr2 & _).
      eexists. split.
      { rewrite Htr2, Htr1, Htr0, <- !app_assoc. reflexivity. }
      rewrite !forallb_app, Hq0, Hq1, recorderEvents_local. done.
    + destruct Hrec as [Htr2 _]. eexists. split.
      { rewrite Htr2, Htr1, Htr0, <- !app_assoc. reflexivity. }
      rewrite !forallb_app, Hq0, Hq1. done.
  - destruct Hmain as (okPush & okOpen & okWrite & _ & Htr).
    destruct (json_MarshalIndent {| Merges := merged |}) as [data|];
      [|by destruct Hrec].
    destruct Hrec as (okW & okA & okC & Htr2 & Hall). symmetry in Hall.
    apply andb_prop in Hall as [[-> ->]%andb_prop ->].
    eexists. split.
    { rewrite Htr, Htr2, Htr1, Htr0, <- !app_assoc. reflexivity. }
    exists cfg, data, (evs0 ++ evs1), okPush, okOpen, okWrite.
    rewrite <- !app_assoc. split; [done|]. by rewrite forallb_app, Hq0, Hq1.
Qed.

(** X12: when the run ends in the configuration, the global git setup or
    the query, nothing was run but [git config], the request and log lines:
    no branch was checked out, deleted or created and nothing was fetched;
    and [main] ends there, with the same status and in the same state. *)
Theorem query_failure_leaves_worktree (cl : CommandLine) (s : World Env) :
  (∃ evs, trace (snd (query cl s)) = trace s ++ evs ∧
          forallb isSetupStep evs = true) ∧
  (∀ code, fst (query cl s) = Exited code →
           main cl s = (Exited code, snd (query cl s))).
Proof.
  split; [apply query_setup|]. intros code. rewrite main_unfold, preamble_query.
  destruct (query cl s) as [[[cfg prs]|code'] s1]; simpl; [done|].
  by intros [= ->].
Qed.

Lemma resetEvents_done (cfg : Config) (okTrunk found okDelete okCreate : bool) :
  resetDone okTrunk found okDelete okCreate = true →
  ∃ before,
    resetEvents cfg okTrunk found okDelete okCreate
    = before ++ [EvGit ["checkout"; "-B"; TargetBranch cfg] true].
Proof.
  unfold resetDone. intros [[-> Hdel]%andb_prop ->]%andb_prop.
  destruct found; simpl in *.
  - rewrite Hdel. by eexists [_; _; _].
  - by eexists [_; _].
Qed.

Lemma query_target_branch (cl : CommandLine) (s s1 : World Env) (cfg : Config)
  (prs : list GitHubPR) :
  query cl s = (Returned (cfg, prs), s1) → TargetBranch cfg ≠ "".
Proof.
  unfold query, bindP, retP. destruct cl as [code|fl]; [done|].
  pose proof (mustParseConfig_cases fl s) as Hcases. cbv zeta in Hcases.
  destruct (_ || _) in Hcases.
  - destruct Hcases as [err ->]. done.
  - rewrite Hcases.
    destruct (mustSetupGitConfig s) as [[[]|code] s0']; [|done].
    destruct (mustFetchQualifiedPRs _ s0') as [[prs'|code] s0'']; [|done].
    intros [= <- _ _]. simpl.
    by destruct (String.eqb_spec (default "" (flag_target_branch fl)) "").
Qed.

(** X13: in a run that completes, one and the same non-empty branch name is
    created by the reset, pushed, and reported as [target_branch]; the
    creation comes before every fetch of a candidate and the push after the
    record of the history. *)
Theorem target_branch_is_consistent (cl : CommandLine) (s s' : World Env) :
  main cl s = (Returned tt, s') →
  ∃ cfg prs before middle okPush okOpen okWrite,
    TargetBranch cfg ≠ "" ∧
    trace s' = trace s ++ before
                 ++ EvGit ["checkout"; "-B"; TargetBranch cfg] true
                 :: middle
                 ++ EvGit ["push"; "origin"; TargetBranch cfg; "--force"] okPush
                 :: outputEvents cfg okOpen okWrite ∧
    fetched before = [] ∧
    fetched middle = map fetchArgs prs.
Proof.
  intros Hmain. pose proof (main_before_output cl s) as Hbefore.
  rewrite preamble_query in Hbefore.
  destruct (query_setup cl s) as (evs0 & Htr0 & Hq0).
  pose proof (query_target_branch cl s) as Htarget.
  destruct (query cl s) as [[[cfg prs]|code] s1]; [|by rewrite Hmain in Hbefore].
  cbn [fst snd] in Htr0. specialize (Htarget s1 cfg prs eq_refl).
  destruct (prepareTargetBranch_events cfg s1)
    as (okTrunk & found & okDelete & okCreate & Hreset).
  destruct (prepareTargetBranch cfg s1) as [[[]|code] s2];
    [|by rewrite Hmain in Hbefore].
  destruct Hreset as [Hdone Htr1].
  destruct (resetEvents_done cfg _ _ _ _ Hdone) as (evs1 & Hevs1).
  pose proof (processPRs_fetched prs s2) as Hfetched.
  destruct (processPRs_emits prs s2) as (evs2 & Htr2 & _).
  destruct (updateRefHistory_emits (fst (processPRs prs s2)) (snd (processPRs prs s2)))
    as (evs3 & Htr3 & _).
  pose proof (updateRefHistory_events (fst (processPRs prs s2))
                (snd (processPRs prs s2))) as Hrec.
  simpl in Hbefore.
  destruct (fst (updateRefHistory (fst (processPRs prs s2)) (snd (processPRs prs s2))))
    as [e|] eqn:Hok; [by rewrite Hmain in Hbefore|].
  destruct Hbefore as (okPush & okOpen & okWrite & _ & Htr).
  rewrite Hmain in Htr. simpl in Htr.
  assert (Hfetch3 : fetched evs3 = []).
  { destruct (json_MarshalIndent _) as [data|]; [|by destruct Hrec].
    destruct Hrec as (okW & okA & okC & Htr3' & _). rewrite Htr3 in Htr3'.
    apply app_inv_head in Htr3'. subst evs3. by destruct okW, okA. }
  assert (Hfetch0 : fetched evs0 = []).
  { clear -Hq0. induction evs0 as [|ev evs0 IH]; [done|].
    simpl in Hq0. apply andb_prop in Hq0 as [Hev Hrest].
    change (ev :: evs0) with ([ev] ++ evs0). rewrite fetched_app, IH by done.
    destruct ev as [[|cmd args] ok| | | | |]; try done.
    simpl in Hev. apply String.eqb_eq in Hev as ->. done. }
  assert (Hfetch1 : fetched evs1 = []).
  { assert (Hall : fetched (resetEvents cfg okTrunk found okDelete okCreate) = []).
    { by destruct okTrunk, found, okDelete. }
    rewrite Hevs1, fetched_app in Hall. by apply app_eq_nil in Hall as [? _]. }
  exists cfg, prs, (evs0 ++ evs1), (evs2 ++ evs3), okPush, okOpen, okWrite.
  split; [done|]. split; [|split].
  - rewrite Htr, Htr3, Htr2, Htr1, Htr0, Hevs1, <- !app_assoc. done.
  - by rewrite fetched_app, Hfetch0, Hfetch1.
  - rewrite fetched_app, Hfetch3, app_nil_r.
    rewrite Htr2, fetched_app in Hfetched. by apply app_inv_head in Hfetched.
Qed.

End PublishFacts.

Lemma target_branch_is_consistent_witness :
  ∃ cfg prs before middle okPush okOpen okWrite,
    TargetBranch cfg ≠ "" ∧
    trace (snd (main (H := scripted [fetchArgs prFirst] (Response 200 "[]"))
                     (U := asciiOnly) (E := toyEncoding)
                     (Parsed demoFlags) freshRun))
    = trace freshRun ++ before
        ++ EvGit ["checkout"; "-B"; TargetBranch cfg] true
        :: middle
        ++ EvGit ["push"; "origin"; TargetBranch cfg; "--force"] okPush
        :: outputEvents cfg okOpen okWrite ∧
    fetched before = [] ∧
    fetched middle = map fetchArgs prs.
Proof.
  apply (target_branch_is_consistent
           (H := scripted [fetchArgs prFirst] (Response 200 "[]"))
           (U := asciiOnly) (E := toyEncoding) (Parsed demoFlags) freshRun).
  vm_compute. reflexivity.
Defined.

Lemma query_failure_leaves_worktree_witness :
  main (H := scripted [] (Response 503 "busy")) (U := asciiOnly) (E := toyEncoding)
       (Parsed demoFlags) freshRun
  = (Exited 1,
     snd (query (H := scripted [] (Response 503 "busy")) (U := asciiOnly)
                (E := toyEncoding) (Parsed demoFlags) freshRun)).
Proof.
  apply (query_failure_leaves_worktree
           (H := scripted [] (Response 503 "busy")) (U := asciiOnly)
           (E := toyEncoding) (Parsed demoFlags) freshRun).
  reflexivity.
Defined.

(** ** From the response of the API to the fetches *)

Section EndToEnd.
Context {Env : Type} `{H : Host Env} `{U : Unicode} `{E : Encoding}.

Lemma fetched_setup (evs : list Event) :
  forallb isSetupStep evs = true → fetched evs = [].
Proof.
  induction evs as [|ev evs IH]; [done|]. simpl.
  intros [Hev Hrest]%andb_prop.
  change (ev :: evs) with ([ev] ++ evs). rewrite fetched_app, IH by done.
  destruct ev as [[|cmd args] ok| | | | |]; try done.
  simpl in Hev. apply String.eqb_eq in Hev as ->. done.
Qed.

Lemma fetchQualifiedPRs_success (cfg : Config) (s s' : World Env)
  (prs : list GitHubPR) :
  fetchQualifiedPRs cfg s = (Success prs, s') →
  ∃ body rawPRs,
    trace s' = trace s ++ [EvHttp (pullsRequest cfg) (Response 200 body)] ∧
    json_Decode body = Some rawPRs ∧
    prs = filter (qualifies (RequiredLabels cfg)) (map toPR rawPRs).
Proof.
  unfold fetchQualifiedPRs.
  destruct (http_NewRequest_ok (pullsURL cfg)); simpl; [|done].
  unfold bind, call_http.
  destruct (http_Do (pullsRequest cfg) (env s)) as [[|status body] e1]; simpl;
    [done|].
  destruct (Z.eqb_spec status 200) as [->|Hstatus]; simpl; [|done].
  destruct (json_Decode body) as [rawPRs|] eqn:Hdecode; simpl; [|done].
  intros [= <- <-]. exists body, rawPRs. by rewrite filterPRs_filter.
Qed.

Lemma httpCalls_app (tr1 tr2 : list Event) :
  httpCalls (tr1 ++ tr2) = httpCalls tr1 ++ httpCalls tr2.
Proof. apply omap_app. Qed.

Lemma fetched_config (evs : list Event) :
  forallb isConfigStep evs = true → fetched evs = [] ∧ httpCalls evs = [].
Proof.
  induction evs as [|ev evs IH]; [done|]. intros Hall. simpl in Hall.
  apply andb_prop in Hall as [Hev Hrest]. destruct (IH Hrest) as [Hf Hh].
  change (ev :: evs) with ([ev] ++ evs).
  rewrite fetched_app, httpCalls_app, Hf, Hh.
  destruct ev as [[|cmd args] ok| | | | |]; try done.
  simpl in Hev. apply String.eqb_eq in Hev as ->. done.
Qed.

Lemma httpCalls_quiet (evs : list Event) :
  forallb notHttp evs = true → httpCalls evs = [].
Proof.
  induction evs as [|ev evs IH]; [done|]. intros Hall. simpl in Hall.
  apply andb_prop in Hall as [Hev Hrest].
  change (ev :: evs) with ([ev] ++ evs). rewrite httpCalls_app, IH by done.
  by destruct ev.
Qed.

Lemma mustSetupGitConfig_config : onlyEmits isConfigStep mustSetupGitConfig.
Proof.
  unfold mustSetupGitConfig. apply onlyEmits_bindP.
  - by apply onlyEmits_lift, setupGitConfig_emits_any.
  - intros [e|]; [by apply onlyEmits_log_Fatal|apply onlyEmits_retP].
Qed.

(** What a query that returns has done, for the flags it was given. *)
Lemma query_returns (fl : Flags) (s s1 : World Env) (cfg : Config)
  (prs : list GitHubPR) :
  query (Parsed fl) s = (Returned (cfg, prs), s1) →
  mustParseConfig (Parsed fl) s = (Returned cfg, s) ∧
  RequiredLabels cfg = parseLabels (default "" (flag_labels fl)) ∧
  ∃ before body rawPRs,
    trace s1 = trace s ++ before ++ [EvHttp (pullsRequest cfg) (Response 200 body)] ∧
    forallb isConfigStep before = true ∧
    json_Decode body = Some rawPRs ∧
    prs = filter (qualifies (RequiredLabels cfg)) (map toPR rawPRs).
Proof.
  unfold query, bindP, retP.
  pose proof (mustParseConfig_cases fl s) as Hcases. cbv zeta in Hcases.
  destruct (_ || _) in Hcases; [by destruct Hcases as [err ->]|].
  rewrite Hcases.
  match goal with |- context [mustFetchQualifiedPRs ?c] => set (cfg0 := c) end.
  destruct (mustSetupGitConfig_config s) as (evsB & HtrB & HqB).
  destruct (mustSetupGitConfig s) as [[[]|code] s0']; [|done]. simpl in HtrB.
  unfold mustFetchQualifiedPRs, bindP, lift.
  destruct (fetchQualifiedPRs cfg0 s0') as [[prs'|err] s0''] eqn:Hfetch; [|done].
  intros [= <- <- <-]. split; [done|]. split; [done|].
  destruct (fetchQualifiedPRs_success _ _ _ _ Hfetch) as (body & rawPRs & Htr & ? & ?).
  exists evsB, body, rawPRs. by rewrite Htr, HtrB, <- !app_assoc.
Qed.

(** X19: in a run that completes, one request is made and the pull
    requests fetched are exactly the pull requests of its response (a 200
    whose body decoded) that qualify under the labels given on the command
    line, each fetched once, in the order of the response. *)
Theorem main_fetches_the_qualifying_response (fl : Flags) (s s' : World Env) :
  main (Parsed fl) s = (Returned tt, s') →
  ∃ cfg body rawPRs evs,
    mustParseConfig (Parsed fl) s = (Returned cfg, s) ∧
    trace s' = trace s ++ evs ∧
    httpCalls evs = [(pullsRequest cfg, Response 200 body)] ∧
    json_Decode body = Some rawPRs ∧
    fetched evs
    = map fetchArgs
          (filter (qualifies (parseLabels (default "" (flag_labels fl))))
                  (map toPR rawPRs)).
Proof.
  intros Hmain. pose proof (main_before_output (Parsed fl) s) as Hbefore.
  rewrite preamble_query in Hbefore.
  pose proof (query_returns fl s) as Hquery.
  destruct (query (Parsed fl) s) as [[[cfg prs]|code] s1];
    [|by rewrite Hmain in Hbefore].
  destruct (Hquery s1 cfg prs eq_refl)
    as (Hcfg & Hlabels & evs0 & body & rawPRs & Htr0 & Hq0 & Hdec & Hprs).
  destruct (fetched_config evs0 Hq0) as [Hf0 Hh0].
  destruct (prepareTargetBranch_events cfg s1)
    as (okTrunk & found & okDelete & okCreate & Hreset).
  destruct (prepareTargetBranch cfg s1) as [[[]|code] s2];
    [|by rewrite Hmain in Hbefore].
  destruct Hreset as [_ Htr1].
  assert (Hf1 : fetched (resetEvents cfg okTrunk found okDelete okCreate) = [] ∧
                httpCalls (resetEvents cfg okTrunk found okDelete okCreate) = []).
  { by destruct okTrunk, found, okDelete. }
  destruct Hf1 as [Hf1 Hh1].
  pose proof (processPRs_fetched prs s2) as Hfetched.
  pose proof (updateRefHistory_events (fst (processPRs prs s2))
                (snd (processPRs prs s2))) as Hrec.
  simpl in Hbefore.
  destruct (fst (updateRefHistory (fst (processPRs prs s2)) (snd (processPRs prs s2))))
    as [e|] eqn:Hok; [by rewrite Hmain in Hbefore|].
  destruct Hbefore as (okPush & okOpen & okWrite & _ & Htr).
  rewrite Hmain in Htr. simpl in Htr.
  destruct (json_MarshalIndent _) as [data|]; [|by destruct Hrec].
  destruct Hrec as (okW & okA & okC & Htr3 & _).
  assert (Hloop : onlyEmits notHttp (processPRs prs)).
  { by apply processPRs_emits_any. }
  destruct (Hloop s2) as (evs2 & Htr2 & Hq2).
  rewrite Htr2, fetched_app in Hfetched. apply app_inv_head in Hfetched.
  assert (Hf3 : fetched (recorderEvents data okW okA okC) = [] ∧
                httpCalls (recorderEvents data okW okA okC) = []).
  { by destruct okW, okA. }
  destruct Hf3 as [Hf3 Hh3].
  assert (Hf4 : fetched (EvGit (pushArgs cfg) okPush
                           :: outputEvents cfg okOpen okWrite) = [] ∧
                httpCalls (EvGit (pushArgs cfg) okPush
                             :: outputEvents cfg okOpen okWrite) = []).
  { by destruct okOpen. }
  destruct Hf4 as [Hf4 Hh4].
  exists cfg, body, rawPRs. eexists. split; [done|]. split.
  { rewrite Htr, Htr3, Htr2, Htr1, Htr0, <- !app_assoc. reflexivity. }
  split; [|split; [done|]].
  - rewrite !httpCalls_app, Hh0, Hh1, (httpCalls_quiet evs2), Hh3, Hh4 by done.
    done.
  - rewrite !fetched_app, Hf0, Hf1, Hfetched, Hf3, Hf4, <- Hlabels, <- Hprs.
    simpl. by rewrite !app_nil_r.
Qed.

End EndToEnd.

Lemma main_fetches_the_qualifying_response_witness :
  ∃ body rawPRs evs,
    trace (snd (main (H := scripted [] (Response 200 "[]")) (U := asciiOnly)
                     (E := toyEncoding) (Parsed labelledFlags) freshRun))
    = trace freshRun ++ evs ∧
    json_Decode (Encoding := toyEncoding) body = Some rawPRs ∧
    fetched evs
    = map fetchArgs (filter (qualifies (U := asciiOnly) ["Next-Feature"])
                            (map toPR rawPRs)).
Proof.
  destruct (main_fetches_the_qualifying_response
              (H := scripted [] (Response 200 "[]")) (U := asciiOnly)
              (E := toyEncoding) labelledFlags freshRun
              (snd (main (H := scripted [] (Response 200 "[]")) (U := asciiOnly)
                         (E := toyEncoding) (Parsed labelledFlags) freshRun)))
    as (cfg & body & rawPRs & evs & _ & Htr & _ & Hdec & Hfetched).
  - vm_compute. reflexivity.
  - exists body, rawPRs, evs. split; [exact Htr|]. split; [exact Hdec|exact Hfetched].
Defined.
